(** * runner-add-ssh: the elevated command runner, the sshd_config renderer
      and the execution orchestrator

    A shallow embedding of [src/adapters/process.js] (spawnAsync, execSudo,
    checkCommand, canSudo, hasSudoAccess), of [generateSSHDConfig] from the
    Windows executor and of the orchestrator [execute], followed by the
    properties of the specification stated over them. *)

From Stdlib Require Import String Ascii List ZArith Bool Lia DecimalString.
Import ListNotations.
Open Scope string_scope.

(** ** JavaScript string primitives

    Strings are sequences of code units below 256; [nl] is the line feed. *)
Module JS.

Definition nl : string := String (ascii_of_nat 10) "".

(** The double quote character. *)
Definition dquote : string := String (ascii_of_nat 34) "".

(** White space in the sense of [String.prototype.trim], restricted to code
    units below 256: TAB, LF, VT, FF, CR, SPACE and NBSP. *)
Definition is_whitespace (c : ascii) : bool :=
  let n := nat_of_ascii c in
  ((9 <=? n)%nat && (n <=? 13)%nat) || (n =? 32)%nat || (n =? 160)%nat.

Fixpoint trimStart (s : string) : string :=
  match s with
  | "" => ""
  | String c s' => if is_whitespace c then trimStart s' else s
  end.

Fixpoint trimEnd (s : string) : string :=
  match s with
  | "" => ""
  | String c s' =>
      match trimEnd s' with
      | "" => if is_whitespace c then "" else String c ""
      | t => String c t
      end
  end.

Definition trim (s : string) : string := trimEnd (trimStart s).

(** A string is truthy when it is not empty. *)
Definition truthy (s : string) : bool :=
  match s with "" => false | _ => true end.

(** [includes hay needle] is [hay.includes(needle)]. *)
Fixpoint includes (hay needle : string) : bool :=
  String.prefix needle hay ||
  match hay with
  | "" => false
  | String _ hay' => includes hay' needle
  end.

(** [split sep s] is [s.split(sep)] for a one-character separator. *)
Fixpoint split (sep : ascii) (s : string) : list string :=
  match s with
  | "" => [""]
  | String c s' =>
      if Ascii.eqb c sep then "" :: split sep s'
      else match split sep s' with
           | [] => [String c ""]
           | x :: xs => String c x :: xs
           end
  end.

(** [join sep l] is [l.join(sep)]. *)
Definition join (sep : string) (l : list string) : string := String.concat sep l.

(** [replaceAll c r s] is [s.replace(/c/g, r)] for a one-character pattern
    [c] and a replacement [r] without [$] patterns. *)
Fixpoint replaceAll (c : ascii) (r : string) (s : string) : string :=
  match s with
  | "" => ""
  | String d s' =>
      if Ascii.eqb d c then r ++ replaceAll c r s'
      else String d (replaceAll c r s')
  end.

(** Template-literal rendering of an integral number. *)
Definition show_Z (z : Z) : string := NilZero.string_of_int (Z.to_int z).

(** Template-literal rendering of a possibly [undefined] string. *)
Definition show_opt (o : option string) : string :=
  match o with Some s => s | None => "undefined" end.

(** Template-literal rendering of an exit code ([null] when the child was
    killed by a signal). *)
Definition show_code (c : option Z) : string :=
  match c with Some z => show_Z z | None => "null" end.

End JS.

(** ** Errors, events and the ambient process *)

(** A thrown JavaScript error: its class name, its [message] and its
    [code] property ([None] when undefined). *)
Record JsError := mkError {
  err_name : string;
  err_message : string;
  err_code : option string
}.

Inductive LogLevel := Debug | Info | Warn | Error.

(** One [spawn(command, args, { stdio })] call; [inv_capture] is
    [stdio = 'pipe'] (as opposed to ['inherit']). *)
Record Invocation := mkInv {
  inv_command : option string;
  inv_args : list string;
  inv_capture : bool
}.

(** What a run leaves behind, in order: the child processes it spawned and
    the calls it made to the logger. *)
Inductive Event :=
| EvSpawn (i : Invocation)
| EvLog (lvl : LogLevel) (msg : string).

Inductive Stream := Stdout | Stderr.

(** How a spawned child ends: an ['error'] event or a ['close'] event with
    the exit code. *)
Inductive Ending :=
| ErrorEvent (msg : string)
| CloseEvent (code : option Z).

(** The outcome of [spawn]: it throws synchronously, or the child runs,
    writes chunks of data on its streams and ends. *)
Inductive SpawnOutcome :=
| Throws (e : JsError)
| Runs (chunks : list (Stream * string)) (ending : Ending).

(** The ambient process: [process.platform], [process.stdin.isTTY],
    [process.getuid()] when the function exists, and the behaviour of the
    operating system on each spawn, which may depend on all that happened
    before. *)
Record Env := mkEnv {
  platform : string;
  stdin_isTTY : bool;
  getuid : option Z;
  spawn : list Event -> Invocation -> SpawnOutcome
}.

Record CommandResult := mkResult {
  stdout : string;
  stderr : string;
  code : option Z
}.

(** ** The monad of asynchronous computations

    A computation reads the history of the run and yields an error or a
    value together with the events it appended. *)
Definition Proc (A : Type) : Type := list Event -> (JsError + A) * list Event.

Definition ret {A} (a : A) : Proc A := fun _ => (inr a, []).

Definition throw {A} (e : JsError) : Proc A := fun _ => (inl e, []).

Definition bind {A B} (m : Proc A) (f : A -> Proc B) : Proc B :=
  fun h =>
    let '(r, es) := m h in
    match r with
    | inl e => (inl e, es)
    | inr a => let '(r', es') := f a (h ++ es)%list in (r', (es ++ es')%list)
    end.

(** [try { m } catch (e) { handler e }]. *)
Definition try_catch {A} (m : Proc A) (handler : JsError -> Proc A) : Proc A :=
  fun h =>
    let '(r, es) := m h in
    match r with
    | inr a => (inr a, es)
    | inl e => let '(r', es') := handler e (h ++ es)%list in (r', (es ++ es')%list)
    end.

Definition emit (es : list Event) : Proc unit := fun _ => (inr tt, es).

Definition log (lvl : LogLevel) (msg : string) : Proc unit := emit [EvLog lvl msg].

Declare Scope proc_scope.
Delimit Scope proc_scope with proc.
Notation "x <- m ;; k" := (bind m (fun x => k))
  (at level 61, m at next level, right associativity) : proc_scope.
Notation "m ;; k" := (bind m (fun _ => k))
  (at level 61, right associativity) : proc_scope.
Open Scope proc_scope.

(** The spawn invocations among a list of events, in order. *)
Fixpoint spawns (es : list Event) : list Invocation :=
  match es with
  | [] => []
  | EvSpawn i :: es' => i :: spawns es'
  | EvLog _ _ :: es' => spawns es'
  end.

(** The messages logged at a given level among a list of events. *)
Definition level_eqb (a b : LogLevel) : bool :=
  match a, b with
  | Debug, Debug | Info, Info | Warn, Warn | Error, Error => true
  | _, _ => false
  end.

Fixpoint logged (lvl : LogLevel) (es : list Event) : list string :=
  match es with
  | [] => []
  | EvLog l m :: es' => if level_eqb l lvl then m :: logged lvl es' else logged lvl es'
  | EvSpawn _ :: es' => logged lvl es'
  end.

(** ** src/adapters/process.js *)
Module Process.
Import JS.

Section WithEnv.

(** The [code] property that the [ProcessError] class of [utils/errors]
    gives its instances. *)
Variable ProcessError_code : option string.
Variable env : Env.

Definition ProcessError (message : string) : JsError :=
  mkError "ProcessError" message ProcessError_code.

(** The options of [spawnAsync] that its body reads; [opt_logger] says
    whether a logger was passed. *)
Record Options := mkOptions {
  opt_logger : bool;
  captureOutput : bool;
  warnOnStderr : bool;
  verbose : bool
}.

(** [{ logger }]: the defaults of the destructuring pattern. *)
Definition with_logger : Options := mkOptions true true true false.

(** [{ logger, captureOutput: false }]. *)
Definition with_logger_no_capture : Options := mkOptions true false true false.

Definition stream_eqb (a b : Stream) : bool :=
  match a, b with Stdout, Stdout | Stderr, Stderr => true | _, _ => false end.

(** The text accumulated by the ['data'] handler of one stream. *)
Fixpoint captured (s : Stream) (chunks : list (Stream * string)) : string :=
  match chunks with
  | [] => ""
  | (s', text) :: rest =>
      if stream_eqb s s' then text ++ captured s rest else captured s rest
  end.

Definition stream_tag (s : Stream) : string :=
  match s with Stdout => "[stdout] " | Stderr => "[stderr] " end.

(** The debug lines of the ['data'] handlers. *)
Definition data_logs (o : Options) (chunks : list (Stream * string)) : list Event :=
  if opt_logger o && verbose o
  then map (fun '(s, text) => EvLog Debug (stream_tag s ++ trim text)) chunks
  else [].

Definition when (b : bool) (m : Proc unit) : Proc unit :=
  if b then m else ret tt.

(** [spawn(command, args, { stdio })] as the environment answers it. *)
Definition do_spawn (i : Invocation) : Proc SpawnOutcome :=
  fun h => (inr (spawn env h i), [EvSpawn i]).

Definition spawnAsync (command : option string) (args : list string)
    (o : Options) : Proc CommandResult :=
  when (opt_logger o)
    (log Debug ("Spawning: " ++ show_opt command ++ " " ++ join " " args)) ;;
  child <- do_spawn (mkInv command args (captureOutput o)) ;;
  match child with
  | Throws e => throw e
  | Runs chunks ending =>
      let chunks := if captureOutput o then chunks else [] in
      let stdout := captured Stdout chunks in
      let stderr := captured Stderr chunks in
      emit (data_logs o chunks) ;;
      match ending with
      | ErrorEvent msg =>
          throw (ProcessError ("Failed to spawn " ++ show_opt command ++ ": " ++ msg))
      | CloseEvent code =>
          match code with
          | Some 0%Z =>
              when (warnOnStderr o && truthy (trim stderr) && opt_logger o)
                (log Warn ("Command produced stderr output: " ++ trim stderr)) ;;
              ret (mkResult stdout stderr code)
          | _ =>
              throw (ProcessError
                ("Command failed: " ++ show_opt command ++ " " ++ join " " args
                 ++ nl ++ "Exit code: " ++ show_code code
                 ++ nl ++ "Stderr: " ++ stderr))
          end
      end
  end.

Definition checkCommand (command : string) : Proc bool :=
  let checkCmd := if String.eqb (platform env) "win32" then "where" else "which" in
  try_catch (spawnAsync (Some checkCmd) [command] with_logger ;; ret true)
            (fun _ => ret false).

(** The test of the [catch] clause of [execSudo]. *)
Definition is_permission_denied (error : JsError) : bool :=
  includes (err_message error) "EACCES" ||
  includes (err_message error) "EPERM" ||
  includes (err_message error) "Permission denied" ||
  match err_code error with
  | Some c => String.eqb c "EACCES"
  | None => false
  end.

Definition requiresPassword (sudoMessage : string) : bool :=
  includes sudoMessage "password" ||
  includes sudoMessage "a terminal is required" ||
  includes sudoMessage "no tty".

Definition no_sudo_message : string :=
  "Command requires elevated privileges, but sudo is not available. Run as root or install/configure sudo.".

Definition no_noninteractive_sudo_message : string :=
  "Command requires sudo privileges, but non-interactive sudo is not available. Re-run with passwordless sudo or as root.".

Definition execSudo (args : list string) : Proc CommandResult :=
  let command := hd_error args in
  let cmdArgs := tl args in
  try_catch
    (log Debug ("Executing: " ++ join " " args) ;;
     spawnAsync command cmdArgs with_logger)
    (fun error =>
       if is_permission_denied error then
         log Debug "Permission denied, retrying with sudo..." ;;
         if negb (String.eqb (platform env) "win32") then
           sudoAvailable <- checkCommand "sudo" ;;
           if negb sudoAvailable then throw (ProcessError no_sudo_message)
           else
             try_catch
               (spawnAsync (Some "sudo") ("-n" :: args) with_logger)
               (fun sudoError =>
                  let sudoMessage := err_message sudoError in
                  if negb (stdin_isTTY env) || requiresPassword sudoMessage then
                    throw (ProcessError no_noninteractive_sudo_message)
                  else
                    log Debug "Sudo requires password, trying interactive sudo..." ;;
                    spawnAsync (Some "sudo") args with_logger_no_capture)
         else throw error
       else throw error).

Definition canSudo : bool :=
  if String.eqb (platform env) "win32" then false
  else match getuid env with
       | Some 0%Z => true
       | _ => false
       end.

Definition hasSudoAccess : Proc bool :=
  if String.eqb (platform env) "win32" then ret false
  else if canSudo then ret true
  else
    sudoAvailable <- checkCommand "sudo" ;;
    if negb sudoAvailable then ret false
    else
      try_catch (spawnAsync (Some "sudo") ["-n"; "-v"] with_logger ;; ret true)
                (fun _ => ret false).

End WithEnv.

End Process.

(** ** The configuration-document renderer of the Windows executor *)
Module Sshd.
Import JS.

(** A JavaScript value as [config.allowUsers] may hold one: the renderer
    calls the string method [split] on it. *)
Inductive JsValue :=
| JUndefined
| JString (s : string)
| JArray (l : list string).

Record Config := mkConfig {
  port : Z;
  mode : string;
  allowUsers : JsValue;
  defaultCwd : string;
  disableForceCwd : bool;
  cwd : string
}.

Definition TypeError (message : string) : JsError := mkError "TypeError" message None.

(** [config.allowUsers.split(' ')]: only a string has the method. *)
Definition allowUsers_split (v : JsValue) : JsError + list string :=
  match v with
  | JString s => inr (split " " s)
  | JArray _ => inl (TypeError "config.allowUsers.split is not a function")
  | JUndefined => inl (TypeError "Cannot read properties of undefined (reading 'split')")
  end.

Definition forceCommandLine (config : Config) : string :=
  if negb (disableForceCwd config)
  then "ForceCommand cmd /c " ++ dquote ++ "cd /d "
       ++ replaceAll "/" "\\" (defaultCwd config) ++ " && cmd" ++ dquote
  else "".

(** The lines of the template literal; the document is these lines, each
    followed by a line feed. *)
Definition document_lines (config : Config) (allowUsersArr : list string) : list string :=
  [ "# SSH Server Configuration - Generated by runner-add-ssh";
    "# Port";
    "Port " ++ show_Z (port config);
    "";
    "# Authentication";
    "PubkeyAuthentication yes";
    "PasswordAuthentication no";
    "ChallengeResponseAuthentication no";
    "";
    "# Security";
    "PermitRootLogin no";
    "StrictModes yes";
    "MaxAuthTries 3";
    "MaxSessions 10";
    "";
    "# Allowed users";
    "AllowUsers " ++ join " " allowUsersArr;
    "";
    "# Windows-specific";
    "Subsystem sftp sftp-server.exe";
    "";
    "# Logging";
    "SyslogFacility AUTH";
    "LogLevel INFO";
    "";
    "# Default working directory";
    forceCommandLine config;
    "";
    "# Performance";
    "UseDNS no" ].

Fixpoint unlines (ls : list string) : string :=
  match ls with
  | [] => ""
  | l :: ls' => l ++ nl ++ unlines ls'
  end.

Definition generateSSHDConfig (config : Config) : JsError + string :=
  match allowUsers_split (allowUsers config) with
  | inl e => inl e
  | inr fields =>
      let allowUsersArr := filter (fun u => truthy (trim u)) fields in
      inr (unlines (document_lines config allowUsersArr))
  end.

End Sshd.

(** ** The orchestrator, core/execute *)
Module Execute.
Import JS Process Sshd.

Record Plan := mkPlan {
  os : string;
  needsInstall : bool;
  plan_steps : list string
}.

(** The [result] object; [success] is [None] until the property is set. *)
Record ExecutionResult := mkExecutionResult {
  installed : bool;
  configured : bool;
  keysSetup : bool;
  serviceStarted : bool;
  steps : list string;
  success : option bool
}.

(** The object literal that [execute] starts from. *)
Definition fresh_result : ExecutionResult :=
  mkExecutionResult false false false false [] None.

Definition set_installed (r : ExecutionResult) : ExecutionResult :=
  mkExecutionResult true (configured r) (keysSetup r) (serviceStarted r) (steps r) (success r).
Definition set_configured (r : ExecutionResult) : ExecutionResult :=
  mkExecutionResult (installed r) true (keysSetup r) (serviceStarted r) (steps r) (success r).
Definition set_keysSetup (r : ExecutionResult) : ExecutionResult :=
  mkExecutionResult (installed r) (configured r) true (serviceStarted r) (steps r) (success r).
Definition set_serviceStarted (r : ExecutionResult) : ExecutionResult :=
  mkExecutionResult (installed r) (configured r) (keysSetup r) true (steps r) (success r).
Definition set_success (r : ExecutionResult) : ExecutionResult :=
  mkExecutionResult (installed r) (configured r) (keysSetup r) (serviceStarted r) (steps r) (Some true).
(** [result.steps.push(name)]. *)
Definition steps_push (name : string) (r : ExecutionResult) : ExecutionResult :=
  mkExecutionResult (installed r) (configured r) (keysSetup r) (serviceStarted r)
    (steps r ++ [name]) (success r).

(** The four stages and the names [execute] records for them. *)
Inductive Stage := Install | Configure | KeysSetup | StartService.

Definition stage_name (s : Stage) : string :=
  match s with
  | Install => "installed"
  | Configure => "configured"
  | KeysSetup => "keys-setup"
  | StartService => "service-started"
  end.

(** What [execute] does that is visible from outside its own statements:
    an event of a callee (a spawn or a logger call), the call of a stage
    function and its successful return. *)
Inductive OEvent :=
| Ext (e : Event)
| Call (s : Stage)
| Return (s : Stage).

(** An event together with the [result] object as it is at that moment. *)
Definition Snapshot : Type := OEvent * ExecutionResult.

(** Computations of the orchestrator: they also read and write the
    [result] object. *)
Definition Orch (A : Type) : Type :=
  ExecutionResult -> list Event -> (JsError + A) * ExecutionResult * list Snapshot.

Fixpoint externals (es : list Snapshot) : list Event :=
  match es with
  | [] => []
  | (Ext e, _) :: es' => e :: externals es'
  | _ :: es' => externals es'
  end.

Definition oret {A} (a : A) : Orch A := fun r _ => (inr a, r, []).

Definition othrow {A} (e : JsError) : Orch A := fun r _ => (inl e, r, []).

Definition obind {A B} (m : Orch A) (f : A -> Orch B) : Orch B :=
  fun r h =>
    let '(x, r1, es1) := m r h in
    match x with
    | inl e => (inl e, r1, es1)
    | inr a =>
        let '(y, r2, es2) := f a r1 (h ++ externals es1)%list in
        (y, r2, (es1 ++ es2)%list)
    end.

Definition otry_catch {A} (m : Orch A) (handler : JsError -> Orch A) : Orch A :=
  fun r h =>
    let '(x, r1, es1) := m r h in
    match x with
    | inr a => (inr a, r1, es1)
    | inl e =>
        let '(y, r2, es2) := handler e r1 (h ++ externals es1)%list in
        (y, r2, (es1 ++ es2)%list)
    end.

(** An awaited call into the process adapter, a stage or the logger: the
    [result] object is not touched while it runs. *)
Definition lifted (r : ExecutionResult) (es : list Event) : list Snapshot :=
  map (fun e => (Ext e, r)) es.

Definition lift {A} (m : Proc A) : Orch A :=
  fun r h => let '(x, es) := m h in (x, r, lifted r es).

Definition mark (o : OEvent) : Orch unit := fun r _ => (inr tt, r, [(o, r)]).

Definition modify (f : ExecutionResult -> ExecutionResult) : Orch unit :=
  fun r _ => (inr tt, f r, []).

Definition get : Orch ExecutionResult := fun r _ => (inr r, r, []).

Declare Scope orch_scope.
Delimit Scope orch_scope with orch.
Notation "x <- m ;; k" := (obind m (fun x => k))
  (at level 61, m at next level, right associativity) : orch_scope.
Notation "m ;; k" := (obind m (fun _ => k))
  (at level 61, right associativity) : orch_scope.

(** The three operations of an OS executor. *)
Record Executor := mkExecutor {
  installSSH : Config -> Proc unit;
  configureSSH : Config -> Proc unit;
  startSSH : Config -> Proc unit
}.

Section WithExecutors.

Variable ProcessError_code : option string.
Variable env : Env.
Variables linuxExecutor windowsExecutor : Executor.
(** [commonExecutor.setupAuthorizedKeys]. *)
Variable setupAuthorizedKeys : Config -> Proc unit.

Local Open Scope orch_scope.

Definition info (msg : string) : Orch unit := lift (log Info msg).

(** [await f(config, logger)] for a stage function [f]. *)
Definition await_stage (s : Stage) (f : Proc unit) : Orch unit :=
  mark (Call s) ;; lift f ;; mark (Return s).

(** The statements of one OS branch of [execute]; the Linux and the
    Windows branch are the same statements over their executor. *)
Definition run_stages (executor : Executor) (plan : Plan) (config : Config) : Orch unit :=
  (if needsInstall plan then
     info "📦 Installing OpenSSH Server..." ;;
     await_stage Install (installSSH executor config) ;;
     modify set_installed ;;
     modify (steps_push "installed") ;;
     info "✅ Installation complete" ;;
     info ""
   else oret tt) ;;
  info "⚙️  Configuring SSH Server..." ;;
  await_stage Configure (configureSSH executor config) ;;
  modify set_configured ;;
  modify (steps_push "configured") ;;
  info "✅ Configuration complete" ;;
  info "" ;;
  info "🔑 Setting up SSH keys..." ;;
  await_stage KeysSetup (setupAuthorizedKeys config) ;;
  modify set_keysSetup ;;
  modify (steps_push "keys-setup") ;;
  info "✅ SSH keys setup complete" ;;
  info "" ;;
  info "🚀 Starting SSH service..." ;;
  await_stage StartService (startSSH executor config) ;;
  modify set_serviceStarted ;;
  modify (steps_push "service-started") ;;
  info "✅ SSH service started" ;;
  info "".

Definition insufficient_privileges_message : string :=
  "Insufficient privileges to configure SSH. Run as root or configure passwordless sudo.".

(** The body of [execute] after the [result] object is created. *)
Definition execute_body (plan : Plan) (config : Config) : Orch ExecutionResult :=
  otry_catch
    (info ("🔧 Executing plan for OS: " ++ os plan) ;;
     info ("   Steps: " ++ join " → " (plan_steps plan)) ;;
     info "" ;;
     (if String.eqb (os plan) "linux" then
        sudoAccess <- lift (hasSudoAccess ProcessError_code env) ;;
        (if negb sudoAccess
         then othrow (ProcessError ProcessError_code insufficient_privileges_message)
         else oret tt) ;;
        run_stages linuxExecutor plan config
      else if String.eqb (os plan) "windows" then
        run_stages windowsExecutor plan config
      else oret tt) ;;
     modify set_success ;;
     get)
    (fun error =>
       lift (log Error ("Execution failed: " ++ err_message error)) ;;
       othrow (ProcessError ProcessError_code ("Execution failed: " ++ err_message error))).

(** [execute(plan, config, logger)] run after the history [h]: the value
    returned or the error thrown, the [result] object as it is at that
    moment, and the events of the run, each with the [result] object as it
    was then. *)
Definition execute (plan : Plan) (config : Config) (h : list Event)
    : (JsError + ExecutionResult) * ExecutionResult * list Snapshot :=
  execute_body plan config fresh_result h.

End WithExecutors.

End Execute.

(** ** Observations on runs, and sample hosts *)
Module Obs.
Import JS Process Sshd Execute.

(** The message of a failure that [spawnAsync] builds itself. *)
Definition generic_failure (message : string) : bool :=
  String.prefix "Command failed: " message || String.prefix "Failed to spawn " message.

(** The debug line that [spawnAsync] writes before it spawns. *)
Definition spawning_log (command : option string) (args : list string) (o : Options)
    : list Event :=
  if opt_logger o
  then [EvLog Debug ("Spawning: " ++ show_opt command ++ " " ++ join " " args)]
  else [].

(** The first line of [execSudo]. *)
Definition executing_log (args : list string) : list Event :=
  [EvLog Debug ("Executing: " ++ join " " args)].

Definition retrying_log : list Event :=
  [EvLog Debug "Permission denied, retrying with sudo..."].

Definition interactive_log : list Event :=
  [EvLog Debug "Sudo requires password, trying interactive sudo..."].

(** The invocations [execSudo] can make for [args]. *)
Definition direct (args : list string) : Invocation := mkInv (hd_error args) (tl args) true.
Definition which_sudo : Invocation := mkInv (Some "which") ["sudo"] true.
Definition sudo_noninteractive (args : list string) : Invocation :=
  mkInv (Some "sudo") ("-n" :: args) true.
Definition sudo_interactive (args : list string) : Invocation :=
  mkInv (Some "sudo") args false.

(** A host where [apt-get] is denied, [sudo] is installed and asks for a
    password. *)
Definition password_host (tty : bool) : Env :=
  mkEnv "linux" tty (Some 1000%Z)
    (fun _ i =>
       match inv_command i with
       | Some c =>
           if String.eqb c "which" then Runs [(Stdout, "/usr/bin/sudo" ++ nl)] (CloseEvent (Some 0%Z))
           else if String.eqb c "sudo" then
             Runs [(Stderr, "sudo: a password is required" ++ nl)] (CloseEvent (Some 1%Z))
           else
             Runs [(Stderr, "E: Could not open lock file /var/lib/dpkg/lock-frontend - open (13: Permission denied)" ++ nl)]
                  (CloseEvent (Some 100%Z))
       | None => Throws (mkError "TypeError" "The file argument must be of type string" (Some "ERR_INVALID_ARG_TYPE"))
       end).

(** The same host without [sudo] on the PATH. *)
Definition bare_host : Env :=
  mkEnv "linux" false (Some 1000%Z)
    (fun _ i =>
       match inv_command i with
       | Some c =>
           if String.eqb c "which" then Runs [] (CloseEvent (Some 1%Z))
           else Runs [(Stderr, "mkdir: cannot create directory: Permission denied" ++ nl)]
                     (CloseEvent (Some 1%Z))
       | None => Throws (mkError "TypeError" "The file argument must be of type string" (Some "ERR_INVALID_ARG_TYPE"))
       end).

(** A Windows host where writing under ProgramData is denied. *)
Definition windows_host : Env :=
  mkEnv "win32" true None
    (fun _ _ => Runs [(Stderr, "Access to the path is denied. EPERM" ++ nl)] (CloseEvent (Some 1%Z))).

(** A host where every command exits with the given code after writing
    the given text on its standard error. *)
Definition plain_host (exit : Z) (err : string) : Env :=
  mkEnv "linux" false (Some 1000%Z)
    (fun _ _ => Runs [(Stdout, "ok" ++ nl); (Stderr, err)] (CloseEvent (Some exit))).

(** A string that is empty or holds white space only. *)
Fixpoint is_blank (s : string) : bool :=
  match s with
  | "" => true
  | String c s' => is_whitespace c && is_blank s'
  end.

(** The horizontal tab. *)
Definition tab : string := String (ascii_of_nat 9) "".

(** The steps of a complete run. *)
Definition expected_steps (needsInstall : bool) : list string :=
  ((if needsInstall then ["installed"] else [])
   ++ ["configured"; "keys-setup"; "service-started"])%list.

(** [l1] is a prefix of [l2]. *)
Definition is_prefix {A} (l1 l2 : list A) : Prop := exists k, l2 = (l1 ++ k)%list.

(** Each stage flag says whether the name of its stage is in [steps]. *)
Definition flags_agree (r : ExecutionResult) : Prop :=
  (installed r = true <-> In "installed" (steps r)) /\
  (configured r = true <-> In "configured" (steps r)) /\
  (keysSetup r = true <-> In "keys-setup" (steps r)) /\
  (serviceStarted r = true <-> In "service-started" (steps r)).

(** The stage functions called during a run, and those that returned, in
    order. *)
Fixpoint called (es : list Snapshot) : list Stage :=
  match es with
  | [] => []
  | (Call s, _) :: es' => s :: called es'
  | _ :: es' => called es'
  end.

Fixpoint returned (es : list Snapshot) : list Stage :=
  match es with
  | [] => []
  | (Return s, _) :: es' => s :: returned es'
  | _ :: es' => returned es'
  end.

(** The stage function that was called and has not returned, if any:
    [pending_from p es] follows the events [es] starting from [p]. *)
Fixpoint pending_from (p : option Stage) (es : list Snapshot) : option Stage :=
  match es with
  | [] => p
  | (Call s, _) :: es' => pending_from (Some s) es'
  | (Return _, _) :: es' => pending_from None es'
  | (Ext _, _) :: es' => pending_from p es'
  end.

Definition pending (es : list Snapshot) : option Stage := pending_from None es.

Definition opt_list (p : option Stage) : list Stage :=
  match p with Some s => [s] | None => [] end.

(** The stages of a complete run. *)
Definition expected_stages (needsInstall : bool) : list Stage :=
  ((if needsInstall then [Install] else []) ++ [Configure; KeysSetup; StartService])%list.

(** The two statements that record a completed stage. *)
Definition record_stage (r : ExecutionResult) (s : Stage) : ExecutionResult :=
  steps_push (stage_name s)
    (match s with
     | Install => set_installed r
     | Configure => set_configured r
     | KeysSetup => set_keysSetup r
     | StartService => set_serviceStarted r
     end).

(** The [result] object after the given stages were recorded. *)
Definition result_after (done : list Stage) : ExecutionResult :=
  fold_left record_stage done fresh_result.

(** [observed I done es]: at each event of [es], [I] relates the stages
    that returned before it ([done] at the start) and the [result] object
    of that moment. *)
Fixpoint observed (I : list Stage -> ExecutionResult -> Prop) (done : list Stage)
    (es : list Snapshot) : Prop :=
  match es with
  | [] => True
  | (e, r) :: es' =>
      I done r /\
      observed I (match e with Return s => (done ++ [s])%list | _ => done end) es'
  end.

(** The [result] object records exactly the stages that returned. *)
Definition in_sync (done : list Stage) (r : ExecutionResult) : Prop :=
  r = result_after done.

(** [tracked b done out]: the outcome [out] of a piece of a run that starts
    when the stages [done] have returned and been recorded. Throughout it
    the [result] object records the stages that returned; the stages are
    called in the order of a complete run, each after the one before it
    returned; the piece ends normally with every stage done, or fails
    inside a stage that was called and did not return. *)
Definition tracked {A} (b : bool) (done : list Stage)
    (out : (JsError + A) * ExecutionResult * list Snapshot) : Prop :=
  let es := snd out in
  observed in_sync done es /\
  snd (fst out) = result_after (done ++ returned es) /\
  called es = (returned es ++ opt_list (pending es))%list /\
  is_prefix (done ++ called es) (expected_stages b) /\
  match fst (fst out) with
  | inr _ => (done ++ returned es)%list = expected_stages b /\ pending es = None
  | inl _ => exists s, pending es = Some s
  end.

(** The three lines [execute] logs first. *)
Definition opening_log (plan : Plan) : list Event :=
  [ EvLog Info ("🔧 Executing plan for OS: " ++ os plan);
    EvLog Info ("   Steps: " ++ join " → " (plan_steps plan));
    EvLog Info "" ].

(** What the [catch] clause of [execute] makes of the error [e]: the
    error is logged and a ProcessError wrapping its message is thrown; the
    [result] object stays as it is. *)
Definition failed (pec : option string) (e : JsError) (r : ExecutionResult)
    (es : list Snapshot) : (JsError + ExecutionResult) * ExecutionResult * list Snapshot :=
  (inl (ProcessError pec ("Execution failed: " ++ err_message e)), r,
   (es ++ lifted r [EvLog Error ("Execution failed: " ++ err_message e)])%list).

(** How [execute] ends after the stages of an OS branch, whose events come
    after the events [before]. *)
Definition finished (pec : option string)
    (out : (JsError + unit) * ExecutionResult * list Snapshot) (before : list Snapshot)
    : (JsError + ExecutionResult) * ExecutionResult * list Snapshot :=
  match out with
  | (inr _, r, es) => (inr (set_success r), set_success r, (before ++ es)%list)
  | (inl e, r, es) => failed pec e r (before ++ es)
  end.

(** What every run of [execute] satisfies: throughout it the [result]
    object records the stages that returned; the stages are called in the
    order of a complete run, each after the one before it returned; the
    run returns the [result] object with [success] set, or fails with a
    stage that was called and did not return, or with no stage called. *)
Definition well_run (b : bool)
    (out : (JsError + ExecutionResult) * ExecutionResult * list Snapshot) : Prop :=
  let r := snd (fst out) in
  let es := snd out in
  observed in_sync [] es /\
  called es = (returned es ++ opt_list (pending es))%list /\
  is_prefix (called es) (expected_stages b) /\
  match fst (fst out) with
  | inr v => v = r /\ r = set_success (result_after (returned es)) /\ pending es = None
  | inl _ =>
      r = result_after (returned es) /\
      ((exists s, pending es = Some s) \/ called es = [])
  end.

(** A stage function that runs one command through [spawnAsync]. *)
Definition command_stage (pec : option string) (env : Env) (command : string)
    (args : list string) : Config -> Proc unit :=
  fun _ => bind (spawnAsync pec env (Some command) args with_logger) (fun _ => ret tt).

(** Executors whose stages each run one command. *)
Definition sample_linux (pec : option string) (env : Env) : Executor :=
  mkExecutor (command_stage pec env "apt-get" ["install"; "-y"; "openssh-server"])
             (command_stage pec env "cp" ["sshd_config"; "/etc/ssh/sshd_config"])
             (command_stage pec env "systemctl" ["start"; "ssh"]).

Definition sample_windows (pec : option string) (env : Env) : Executor :=
  mkExecutor (command_stage pec env "powershell" ["Add-WindowsCapability"])
             (command_stage pec env "powershell" ["Copy-Item"])
             (command_stage pec env "powershell" ["Start-Service"; "sshd"]).

Definition sample_keys (pec : option string) (env : Env) : Config -> Proc unit :=
  command_stage pec env "tee" ["authorized_keys"].

Definition sample_config : Config :=
  mkConfig 2222 "auto" (JString "ci") "/workspace" false "/home/ci".

(** A Linux host without root and without [sudo]; every other command
    succeeds. *)
Definition unprivileged_host : Env :=
  mkEnv "linux" false (Some 1000%Z)
    (fun _ i =>
       match inv_command i with
       | Some c =>
           if String.eqb c "which" then Runs [] (CloseEvent (Some 1%Z))
           else Runs [] (CloseEvent (Some 0%Z))
       | None => Throws (mkError "TypeError" "The file argument must be of type string" (Some "ERR_INVALID_ARG_TYPE"))
       end).

(** A Linux host run as root where every command succeeds, but [cp] when
    [cp_fails] is set. *)
Definition root_host (cp_fails : bool) : Env :=
  mkEnv "linux" false (Some 0%Z)
    (fun _ i =>
       match inv_command i with
       | Some c =>
           if cp_fails && String.eqb c "cp"
           then Runs [(Stderr, "cp: cannot stat 'sshd_config'" ++ nl)] (CloseEvent (Some 1%Z))
           else Runs [] (CloseEvent (Some 0%Z))
       | None => Throws (mkError "TypeError" "The file argument must be of type string" (Some "ERR_INVALID_ARG_TYPE"))
       end).

(** [execute] on a sample host with the sample executors. *)
Definition sample_run (env : Env) (plan : Plan)
    : (JsError + ExecutionResult) * ExecutionResult * list Snapshot :=
  execute None env (sample_linux None env) (sample_windows None env) (sample_keys None env)
    plan sample_config [].

End Obs.

(** ** The Windows executor, core/execute/windows *)
Module Windows.
Import JS Process Sshd.

Section WithAdapters.

Variable ProcessError_code : option string.
Variable env : Env.
(** [path.join] and [path.dirname] of the platform. *)
Variable path_join : list string -> string.
Variable path_dirname : string -> string.
(** [ensureDir] and [writeFile] of [adapters/fs]. *)
Variable ensureDir : string -> Proc unit.
Variable writeFile : string -> string -> Proc unit.

(** [spawnAsync('powershell', ['-NoProfile', '-NonInteractive', '-Command',
    cmd], { logger })]. *)
Definition powershell_args (cmd : string) : list string :=
  ["-NoProfile"; "-NonInteractive"; "-Command"; cmd].

Definition powershell (cmd : string) : Proc CommandResult :=
  spawnAsync ProcessError_code env (Some "powershell") (powershell_args cmd) with_logger.

(** A value thrown by a synchronous call. *)
Definition of_sum {A} (x : JsError + A) : Proc A :=
  match x with inl e => throw e | inr a => ret a end.

(** [[result.stdout, result.stderr].join('\n')]. *)
Definition output_of (result : CommandResult) : string :=
  join nl [stdout result; stderr result].

Definition checkCmd : string :=
  "Get-WindowsCapability -Online | Where-Object Name -like 'OpenSSH.Server*'".

Definition installCmd : string :=
  "Add-WindowsCapability -Online -Name OpenSSH.Server~~~~0.0.1.0".

Definition installSSH (config : Config) : Proc unit :=
  try_catch
    (log Debug "Checking OpenSSH Server installation status..." ;;
     checkResult <- powershell checkCmd ;;
     let checkOutput := output_of checkResult in
     if includes checkOutput "State        : Installed" then
       log Debug "OpenSSH Server already installed"
     else
       log Debug "Installing OpenSSH Server..." ;;
       powershell installCmd ;;
       log Debug "OpenSSH Server installed successfully")
    (fun error =>
       throw (ProcessError ProcessError_code
                ("Failed to install OpenSSH Server: " ++ err_message error))).

Definition sshdConfigPath : string := "C:\ProgramData\ssh\sshd_config".

Definition newItemCmd : string :=
  "New-Item -ItemType Directory -Force -Path " ++ dquote ++ "C:\ProgramData\ssh" ++ dquote.

Definition copyCmd (tempConfigPath : string) : string :=
  "Copy-Item -Path " ++ dquote ++ replaceAll "/" "\" tempConfigPath ++ dquote
  ++ " -Destination " ++ dquote ++ sshdConfigPath ++ dquote ++ " -Force".

Definition firewallCmd (config : Config) : string :=
  "New-NetFirewallRule -Name " ++ dquote ++ "OpenSSH-Server-In-TCP" ++ dquote
  ++ " -DisplayName " ++ dquote ++ "OpenSSH Server (sshd)" ++ dquote
  ++ " -Enabled True -Direction Inbound -Protocol TCP -Action Allow -LocalPort "
  ++ show_Z (port config) ++ " -ErrorAction SilentlyContinue".

Definition configureSSH (config : Config) : Proc unit :=
  try_catch
    (powershell newItemCmd ;;
     sshdConfig <- of_sum (generateSSHDConfig config) ;;
     let tempConfigPath :=
       path_join [cwd config; ".runner-data"; "tmp"; "sshd_config_win"] in
     ensureDir (path_dirname tempConfigPath) ;;
     writeFile tempConfigPath sshdConfig ;;
     log Debug ("Writing sshd_config to " ++ sshdConfigPath ++ "...") ;;
     powershell (copyCmd tempConfigPath) ;;
     log Debug ("Configuring firewall for port " ++ show_Z (port config) ++ "...") ;;
     powershell (firewallCmd config) ;;
     log Debug "SSH configuration applied successfully")
    (fun error =>
       throw (ProcessError ProcessError_code
                ("Failed to configure SSH: " ++ err_message error))).

Definition setServiceCmd : string := "Set-Service -Name sshd -StartupType Automatic".
Definition startServiceCmd : string := "Start-Service sshd".
Definition getServiceCmd : string :=
  "Get-Service sshd | Select-Object -ExpandProperty Status".

(** [new Error(message)]. *)
Definition PlainError (message : string) : JsError := mkError "Error" message None.

Definition startSSH (config : Config) : Proc unit :=
  try_catch
    (log Debug "Setting SSH service to automatic start..." ;;
     powershell setServiceCmd ;;
     log Debug "Starting SSH service..." ;;
     powershell startServiceCmd ;;
     log Debug "Verifying SSH service status..." ;;
     statusResult <- powershell getServiceCmd ;;
     let statusOutput := output_of statusResult in
     if negb (includes statusOutput "Running") then
       throw (PlainError "SSH service failed to start")
     else
       log Debug "SSH service is running")
    (fun error =>
       throw (ProcessError ProcessError_code
                ("Failed to start SSH service: " ++ err_message error))).

(** The module's exports. *)
Definition windowsExecutor : Execute.Executor :=
  Execute.mkExecutor installSSH configureSSH startSSH.

End WithAdapters.

End Windows.

(** ** Sample hosts and commands for the further properties *)
Module Samples.
Import JS Process Sshd Execute Windows Obs.

(** The one shape of the commands of the Windows executor. *)
Definition ps (cmd : string) : Invocation :=
  mkInv (Some "powershell") (powershell_args cmd) true.

(** No command is spawned during the events of an outcome. *)
Definition spawn_free {A} (out : (JsError + A) * ExecutionResult * list Snapshot) : Prop :=
  spawns (externals (snd out)) = [].

(** A stage function that spawns nothing. *)
Definition quiet (f : Config -> Proc unit) : Prop :=
  forall config h, spawns (snd (f config h)) = [].

(** [c] occurs in [s]. *)
Fixpoint has_char (c : ascii) (s : string) : bool :=
  match s with
  | "" => false
  | String d s' => Ascii.eqb d c || has_char c s'
  end.


(** [{ ...config, allowUsers: v }]. *)
Definition with_allowUsers (config : Config) (v : JsValue) : Config :=
  mkConfig (port config) (mode config) v (defaultCwd config) (disableForceCwd config)
    (cwd config).

(** The users the renderer keeps of the string [s]. *)
Definition users_of (s : string) : list string :=
  filter (fun u => truthy (trim u)) (split " " s).

(** A Linux host where [sudo] is installed and needs no password; every
    command run directly is denied. *)
Definition sudoers_host : Env :=
  mkEnv "linux" false (Some 1000%Z)
    (fun _ i =>
       match inv_command i with
       | Some c =>
           if String.eqb c "which" then Runs [(Stdout, "/usr/bin/sudo" ++ nl)] (CloseEvent (Some 0%Z))
           else if String.eqb c "sudo" then Runs [(Stdout, "done" ++ nl)] (CloseEvent (Some 0%Z))
           else Runs [(Stderr, "mkdir: cannot create directory: Permission denied" ++ nl)]
                     (CloseEvent (Some 1%Z))
       | None => Throws (mkError "TypeError" "The file argument must be of type string" (Some "ERR_INVALID_ARG_TYPE"))
       end).

(** A Windows host where every command succeeds and prints [out]. *)
Definition powershell_host (out : string) : Env :=
  mkEnv "win32" false None (fun _ _ => Runs [(Stdout, out)] (CloseEvent (Some 0%Z))).

(** A stage function that does nothing, and the executor made of it. *)
Definition silent_stage : Config -> Proc unit := fun _ => ret tt.

Definition silent_executor : Executor := mkExecutor silent_stage silent_stage silent_stage.

(** Stand-ins for [path.join], [path.dirname], [ensureDir] and
    [writeFile]. *)
Definition slash_join (parts : list string) : string := join "/" parts.
Definition same_directory (p : string) : string := p.
Definition dir_made : string -> Proc unit := fun _ => ret tt.
Definition file_written : string -> string -> Proc unit := fun _ _ => ret tt.

(** A Config whose [allowUsers] is a sequence. *)
Definition sequence_config : Config :=
  mkConfig 2222 "auto" (JArray ["alice"; "bob"]) "/workspace" false "/home/ci".

End Samples.

(** ** The logger, utils/logger *)
Module LoggerUtil.
Import JS.

(** The data a caller logs: plain JavaScript values. An object is the list
    of its own properties in enumeration order; a number is integral. *)
#[warnings="-register-all"]
Inductive Data :=
| DUndefined
| DNull
| DBool (b : bool)
| DNum (z : Z)
| DStr (s : string)
| DArr (l : list Data)
| DObj (kvs : list (string * Data)).

(** [typeof value === 'object']: objects, arrays and [null]. *)
Definition is_object (d : Data) : bool :=
  match d with
  | DNull | DArr _ | DObj _ => true
  | _ => false
  end.

(** The truth value of [data] in [if (data)]. *)
Definition data_truthy (d : Data) : bool :=
  match d with
  | DUndefined | DNull => false
  | DBool b => b
  | DNum z => negb (Z.eqb z 0)
  | DStr s => truthy s
  | DArr _ | DObj _ => true
  end.

(** [String(value)]. *)
Fixpoint js_String (d : Data) : string :=
  match d with
  | DUndefined => "undefined"
  | DNull => "null"
  | DBool true => "true"
  | DBool false => "false"
  | DNum z => show_Z z
  | DStr s => s
  | DArr l =>
      join ","
        (map (fun v => match v with
                       | DUndefined | DNull => ""
                       | _ => js_String v
                       end) l)
  | DObj _ => "[object Object]"
  end.

(** [toLowerCase] on code units below 256. *)
Definition lower_char (c : ascii) : ascii :=
  let n := nat_of_ascii c in
  if ((65 <=? n)%nat && (n <=? 90)%nat)
     || ((192 <=? n)%nat && (n <=? 222)%nat && negb (n =? 215)%nat)
  then ascii_of_nat (n + 32)
  else c.

Fixpoint toLowerCase (s : string) : string :=
  match s with
  | "" => ""
  | String c s' => String (lower_char c) (toLowerCase s')
  end.

(** The test on [lowerKey] in [_maskData]. *)
Definition sensitive (key : string) : bool :=
  let lowerKey := toLowerCase key in
  includes lowerKey "key" ||
  includes lowerKey "token" ||
  includes lowerKey "secret" ||
  includes lowerKey "password" ||
  includes lowerKey "auth".

Inductive ConsoleStream := ConsoleLog | ConsoleWarn | ConsoleError.

(** What a logger call leaves behind: a line on the console or an
    [fs.appendFile] on the log file. *)
Inductive LogEvent :=
| Console (stream : ConsoleStream) (text : string)
| Append (path : string) (text : string).

(** The fields of a [Logger] that its methods read. *)
Record Logger := mkLogger {
  verbose : bool;
  quiet : bool;
  logFilePath : string
}.

Section WithCollaborators.

(** [maskSensitive] of [utils/mask]. *)
Variable maskSensitive : string -> string.
(** [JSON.stringify(., null, 2)]. *)
Variable stringify : Data -> string.
(** [getVNTimestamp] of [adapters/time], read after what happened so far. *)
Variable getVNTimestamp : list LogEvent -> string.

Fixpoint _maskData (data : Data) : Data :=
  match data with
  | DArr l =>
      DArr (map (fun value => if is_object value then _maskData value else value) l)
  | DObj kvs =>
      DObj (map (fun kv =>
                   match kv with
                   | (key, value) =>
                       if sensitive key then (key, DStr (maskSensitive (js_String value)))
                       else if is_object value then (key, _maskData value)
                       else (key, value)
                   end) kvs)
  | _ => data
  end.

Definition _formatMessage (level message : string) (data : Data) (h : list LogEvent)
    : string :=
  let timestamp := getVNTimestamp h in
  let formatted := "[" ++ timestamp ++ "] [" ++ level ++ "] " ++ message in
  if data_truthy data
  then formatted ++ nl ++ stringify (_maskData data)
  else formatted.

Definition _writeToFile (this : Logger) (message : string) : list LogEvent :=
  [Append (logFilePath this) (message ++ nl)].

Definition _log (this : Logger) (level message : string) (data : Data)
    (h : list LogEvent) : list LogEvent :=
  _writeToFile this (_formatMessage level message data h).

(** A method: the events it appends to the history [h]. *)
Definition then_log (this : Logger) (printed : list LogEvent) (level message : string)
    (data : Data) (h : list LogEvent) : list LogEvent :=
  (printed ++ _log this level message data (h ++ printed))%list.

Definition info (this : Logger) (message : string) (data : Data) (h : list LogEvent)
    : list LogEvent :=
  then_log this
    (if negb (quiet this) then [Console ConsoleLog message] else [])
    "INFO" message data h.

Definition warn (this : Logger) (message : string) (data : Data) (h : list LogEvent)
    : list LogEvent :=
  then_log this
    (if negb (quiet this) then [Console ConsoleWarn ("⚠️  " ++ message)] else [])
    "WARN" message data h.

Definition error (this : Logger) (message : string) (data : Data) (h : list LogEvent)
    : list LogEvent :=
  then_log this
    (Console ConsoleError ("❌ " ++ message)
     :: if data_truthy data
        then [Console ConsoleError (stringify (_maskData data))]
        else [])
    "ERROR" message data h.

Definition debug (this : Logger) (message : string) (data : Data) (h : list LogEvent)
    : list LogEvent :=
  then_log this
    (if verbose this && negb (quiet this)
     then [Console ConsoleLog ("[DEBUG] " ++ message)] else [])
    "DEBUG" message data h.

Definition success (this : Logger) (message : string) (data : Data) (h : list LogEvent)
    : list LogEvent :=
  then_log this
    (if negb (quiet this) then [Console ConsoleLog ("✅ " ++ message)] else [])
    "SUCCESS" message data h.

End WithCollaborators.





(** The lines printed on the console and the records appended to the log
    file among a list of events. *)
Fixpoint console_of (es : list LogEvent) : list (ConsoleStream * string) :=
  match es with
  | [] => []
  | Console stream text :: es' => (stream, text) :: console_of es'
  | Append _ _ :: es' => console_of es'
  end.

Fixpoint appends_of (es : list LogEvent) : list (string * string) :=
  match es with
  | [] => []
  | Append path text :: es' => (path, text) :: appends_of es'
  | Console _ _ :: es' => appends_of es'
  end.

End LoggerUtil.

(** * Properties *)

(** ** Strings and event lists *)
Section StringFacts.
Import JS.

Lemma prefix_app (a b : string) : String.prefix a (a ++ b) = true.
Proof.
  induction a as [|c a IH]; simpl.
  - now destruct b.
  - destruct (ascii_dec c c) as [_|n]; [exact IH | now elim n].
Qed.

Lemma includes_here (a b : string) : includes (a ++ b) a = true.
Proof.
  destruct a as [|c a].
  - simpl. now destruct b.
  - change (String.prefix (String c a) (String c a ++ b) || includes (a ++ b) (String c a) = true).
    now rewrite prefix_app.
Qed.

Lemma includes_skip (a s needle : string) :
  includes s needle = true -> includes (a ++ s) needle = true.
Proof.
  intros H. induction a as [|c a IH]; simpl; [exact H|].
  rewrite IH. apply orb_true_r.
Qed.


Lemma truthy_nonempty (s : string) : truthy (trim s) = true -> s <> "".
Proof. intros H ->. discriminate H. Qed.

Lemma string_app_assoc (a b c : string) : (a ++ b) ++ c = a ++ b ++ c.
Proof. induction a as [|x a IH]; simpl; [reflexivity | now rewrite IH]. Qed.

End StringFacts.

Lemma spawns_app (a b : list Event) : spawns (a ++ b) = (spawns a ++ spawns b)%list.
Proof.
  induction a as [|[i|l m] a IH]; simpl; [reflexivity | now rewrite IH | exact IH].
Qed.

Lemma logged_app (lvl : LogLevel) (a b : list Event) :
  logged lvl (a ++ b) = (logged lvl a ++ logged lvl b)%list.
Proof.
  induction a as [|[i|l m] a IH]; simpl; [reflexivity | exact IH |].
  destruct (level_eqb l lvl); simpl; now rewrite IH.
Qed.

(** ** The elevated command runner *)
Section ProcessFacts.
Import JS Process Obs.

Variable pec : option string.
Variable env : Env.

Lemma data_logs_spawns o chunks : spawns (data_logs o chunks) = [].
Proof.
  unfold data_logs. destruct (opt_logger o && verbose o); [|reflexivity].
  induction chunks as [|[s text] chunks IH]; simpl; auto.
Qed.

Lemma data_logs_logged lvl o chunks : lvl <> Debug -> logged lvl (data_logs o chunks) = [].
Proof.
  intros Hl. unfold data_logs. destruct (opt_logger o && verbose o); [|reflexivity].
  induction chunks as [|[s text] chunks IH]; simpl; auto.
  destruct lvl; simpl; auto. now elim Hl.
Qed.

(** [spawnAsync] as a function of what the environment answers. *)
Lemma spawnAsync_eq command args o h :
  spawnAsync pec env command args o h =
  let inv := mkInv command args (captureOutput o) in
  let pre := (spawning_log command args o ++ [EvSpawn inv])%list in
  match spawn env (h ++ spawning_log command args o) inv with
  | Throws e => (inl e, pre)
  | Runs chunks ending =>
      let seen := if captureOutput o then chunks else [] in
      let pre := (pre ++ data_logs o seen)%list in
      match ending with
      | ErrorEvent msg =>
          (inl (ProcessError pec ("Failed to spawn " ++ show_opt command ++ ": " ++ msg)), pre)
      | CloseEvent (Some 0%Z) =>
          (inr (mkResult (captured Stdout seen) (captured Stderr seen) (Some 0%Z)),
           (pre ++ if warnOnStderr o && truthy (trim (captured Stderr seen)) && opt_logger o
                   then [EvLog Warn ("Command produced stderr output: " ++ trim (captured Stderr seen))]
                   else [])%list)
      | CloseEvent code =>
          (inl (ProcessError pec
                  ("Command failed: " ++ show_opt command ++ " " ++ join " " args
                   ++ nl ++ "Exit code: " ++ show_code code
                   ++ nl ++ "Stderr: " ++ captured Stderr seen)), pre)
      end
  end.
Proof.
  unfold spawnAsync, spawning_log, bind, when, log, emit, do_spawn, ret, throw.
  destruct (opt_logger o); simpl;
    (destruct (spawn env _ _) as [e|chunks [msg|[[|p|p]|]]]; simpl;
     rewrite ?app_nil_r, <- ?app_assoc; simpl; try reflexivity;
     destruct (warnOnStderr o && truthy (trim (captured Stderr (if captureOutput o then chunks else []))) && _);
     simpl; rewrite ?app_nil_r, <- ?app_assoc; reflexivity).
Qed.

(** Every call of [spawnAsync] spawns exactly one child. *)
Lemma spawnAsync_spawns command args o h :
  spawns (snd (spawnAsync pec env command args o h)) = [mkInv command args (captureOutput o)].
Proof.
  rewrite spawnAsync_eq. cbv zeta.
  assert (Hpre : spawns (spawning_log command args o) = [])
    by (unfold spawning_log; now destruct (opt_logger o)).
  destruct (spawn env _ _) as [e|chunks [msg|[[|p|p]|]]]; simpl;
    rewrite ?spawns_app, ?data_logs_spawns, ?Hpre; simpl; try reflexivity.
  destruct (_ && _); reflexivity.
Qed.

Lemma checkCommand_eq command h :
  checkCommand pec env command h =
  let checkCmd := if String.eqb (platform env) "win32" then "where" else "which" in
  let '(x, es) := spawnAsync pec env (Some checkCmd) [command] with_logger h in
  (inr (match x with inr _ => true | inl _ => false end), es).
Proof.
  unfold checkCommand, try_catch, bind, ret. cbv zeta.
  destruct (spawnAsync _ _ _ _ _ _) as [[e|res] es]; simpl; now rewrite app_nil_r.
Qed.

(** [checkCommand] never throws and spawns the one lookup. *)
Lemma checkCommand_total command h :
  exists b es,
    checkCommand pec env command h = (inr b, es) /\
    spawns es =
      [mkInv (Some (if String.eqb (platform env) "win32" then "where" else "which")) [command] true].
Proof.
  rewrite checkCommand_eq. cbv zeta.
  pose proof (spawnAsync_spawns
    (Some (if String.eqb (platform env) "win32" then "where" else "which")) [command] with_logger h) as Hs.
  destruct (spawnAsync _ _ _ _ _ _) as [x es]. simpl in Hs. eauto.
Qed.

(** [hasSudoAccess] never throws. *)
Lemma hasSudoAccess_total h : exists b es, hasSudoAccess pec env h = (inr b, es).
Proof.
  unfold hasSudoAccess.
  destruct (String.eqb (platform env) "win32"); [unfold ret; eauto|].
  destruct (canSudo env); [unfold ret; eauto|].
  unfold bind, try_catch.
  destruct (checkCommand_total "sudo" h) as (b & es & -> & _).
  destruct b; simpl; [|unfold ret; eauto].
  destruct (spawnAsync _ _ _ _ _ _) as [[e|r] es']; simpl; eauto.
Qed.

End ProcessFacts.

Section RunnerClaims.
Import JS Process Obs.

Variable pec : option string.
Variable env : Env.

(** [execSudo] as a function of the outcomes of the commands it runs. *)
Lemma execSudo_eq args h :
  execSudo pec env args h =
  let '(x0, es0) :=
    spawnAsync pec env (hd_error args) (tl args) with_logger (h ++ executing_log args)%list in
  match x0 with
  | inr res => (inr res, executing_log args ++ es0)%list
  | inl error =>
      if is_permission_denied error then
        if negb (String.eqb (platform env) "win32") then
          let h1 := ((h ++ executing_log args ++ es0) ++ retrying_log)%list in
          let '(x1, es1) := checkCommand pec env "sudo" h1 in
          match x1 with
          | inl e => (inl e, executing_log args ++ es0 ++ retrying_log ++ es1)%list
          | inr false =>
              (inl (ProcessError pec no_sudo_message),
               executing_log args ++ es0 ++ retrying_log ++ es1)%list
          | inr true =>
              let '(x2, es2) :=
                spawnAsync pec env (Some "sudo") ("-n" :: args) with_logger (h1 ++ es1)%list in
              match x2 with
              | inr res =>
                  (inr res, executing_log args ++ es0 ++ retrying_log ++ es1 ++ es2)%list
              | inl sudoError =>
                  if negb (stdin_isTTY env) || requiresPassword (err_message sudoError) then
                    (inl (ProcessError pec no_noninteractive_sudo_message),
                     executing_log args ++ es0 ++ retrying_log ++ es1 ++ es2)%list
                  else
                    let '(x3, es3) :=
                      spawnAsync pec env (Some "sudo") args with_logger_no_capture
                        (((h1 ++ es1) ++ es2) ++ interactive_log)%list in
                    (x3, executing_log args ++ es0 ++ retrying_log ++ es1 ++ es2
                         ++ interactive_log ++ es3)%list
              end
          end
        else (inl error, executing_log args ++ es0 ++ retrying_log)%list
      else (inl error, executing_log args ++ es0)%list
  end.
Proof.
  unfold execSudo, try_catch, bind, log, emit, throw.
  change [EvLog Debug ("Executing: " ++ join " " args)] with (executing_log args).
  change [EvLog Debug "Permission denied, retrying with sudo..."] with retrying_log.
  change [EvLog Debug "Sudo requires password, trying interactive sudo..."]
    with interactive_log.
  cbv zeta.
  destruct (spawnAsync pec env (hd_error args) (tl args) with_logger _) as [[error|res] es0];
    [|reflexivity].
  destruct (is_permission_denied error); [|now rewrite app_nil_r].
  destruct (negb (String.eqb (platform env) "win32"));
    [|now rewrite app_nil_r, <- app_assoc].
  destruct (checkCommand pec env "sudo" _) as [[e|[|]] es1]; cbn [negb];
    try (now rewrite ?app_nil_r, <- ?app_assoc).
  destruct (spawnAsync pec env (Some "sudo") ("-n" :: args) with_logger _) as [[sudoError|res] es2];
    [|now rewrite <- ?app_assoc].
  destruct (negb (stdin_isTTY env) || requiresPassword (err_message sudoError));
    [now rewrite ?app_nil_r, <- ?app_assoc|].
  destruct (spawnAsync pec env (Some "sudo") args with_logger_no_capture _) as [x3 es3].
  now rewrite <- ?app_assoc.
Qed.

Lemma includes_refl (s : string) : includes s s = true.
Proof.
  destruct s as [|c s]; [reflexivity|].
  pose proof (includes_here (String c s) "") as H.
  assert (E : (String c s ++ "")%string = String c s).
  { clear H. generalize (String c s). intros t. induction t as [|d t IH]; simpl; congruence. }
  now rewrite E in H.
Qed.

(** C7. One direct invocation whose child closes: the child is spawned
    once and never again, and nothing is logged as an error. With exit code
    zero the call returns the CommandResult with the captured output and
    that exit code, and the captured stderr is logged as a warning (only
    when it is not empty: when its trimmed text is not empty, a logger was
    passed and warnOnStderr is on). With any other exit code the call fails
    with a ProcessError whose message carries the command, the argument
    list, the exit code and the captured stderr. *)
Theorem spawnAsync_exit_code command args o h chunks code :
  spawn env (h ++ spawning_log command args o) (mkInv command args (captureOutput o))
    = Runs chunks (CloseEvent code) ->
  let seen := if captureOutput o then chunks else [] in
  let out := captured Stdout seen in
  let err := captured Stderr seen in
  let run := spawnAsync pec env command args o h in
  spawns (snd run) = [mkInv command args (captureOutput o)] /\
  logged Error (snd run) = [] /\
  (code = Some 0%Z ->
     fst run = inr (mkResult out err (Some 0%Z)) /\
     logged Warn (snd run) =
       (if warnOnStderr o && truthy (trim err) && opt_logger o
        then ["Command produced stderr output: " ++ trim err] else []) /\
     (logged Warn (snd run) <> [] -> err <> "")) /\
  (code <> Some 0%Z ->
     exists message,
       fst run = inl (ProcessError pec message) /\
       message = "Command failed: " ++ show_opt command ++ " " ++ join " " args
                 ++ nl ++ "Exit code: " ++ show_code code
                 ++ nl ++ "Stderr: " ++ err /\
       includes message (show_opt command) = true /\
       includes message (join " " args) = true /\
       includes message (show_code code) = true /\
       includes message err = true /\
       logged Warn (snd run) = []).
Proof.
  intros Hspawn seen out err run.
  assert (Hpre : forall lvl, logged lvl (spawning_log command args o) = [] \/ lvl = Debug).
  { intros lvl. unfold spawning_log. destruct (opt_logger o); [|now left].
    destruct lvl; simpl; auto. }
  split; [apply spawnAsync_spawns|].
  subst run. rewrite spawnAsync_eq. cbv zeta. rewrite Hspawn. fold seen. fold err. fold out.
  assert (HE : logged Error (spawning_log command args o) = [])
    by (destruct (Hpre Error) as [H|H]; [exact H | discriminate H]).
  assert (HW : logged Warn (spawning_log command args o) = [])
    by (destruct (Hpre Warn) as [H|H]; [exact H | discriminate H]).
  split; [|split].
  - destruct code as [[|p|p]|]; simpl;
      rewrite ?logged_app, ?HE, ?data_logs_logged by discriminate; try reflexivity.
    destruct (_ && _); reflexivity.
  - intros ->. simpl. split; [reflexivity|].
    rewrite !logged_app, HW, data_logs_logged by discriminate. simpl.
    destruct (warnOnStderr o), (truthy (trim err)) eqn:Ht, (opt_logger o); simpl;
      (split; [reflexivity|]); intros H; try (now elim H); now apply truthy_nonempty.
  - intros Hcode.
    exists ("Command failed: " ++ show_opt command ++ " " ++ join " " args
            ++ nl ++ "Exit code: " ++ show_code code ++ nl ++ "Stderr: " ++ err).
    split; [|split; [reflexivity|]].
    + destruct code as [[|p|p]|]; try reflexivity. now elim Hcode.
    + repeat split.
      * apply (includes_skip "Command failed: "), includes_here.
      * do 3 apply includes_skip. apply includes_here.
      * do 6 apply includes_skip. apply includes_here.
      * do 9 apply includes_skip. apply includes_refl.
      * destruct code as [[|p|p]|]; simpl;
          rewrite ?logged_app, ?HW, ?data_logs_logged by discriminate;
          try reflexivity. now elim Hcode.
Qed.

(** When the direct attempt succeeds, [execSudo] returns its result and
    spawns nothing else. *)
Lemma execSudo_success_no_retry args h res es0 :
  spawnAsync pec env (hd_error args) (tl args) with_logger (h ++ executing_log args)%list
    = (inr res, es0) ->
  fst (execSudo pec env args h) = inr res /\
  spawns (snd (execSudo pec env args h)) = [direct args].
Proof.
  intros H. rewrite execSudo_eq, H. simpl. split; [reflexivity|].
  pose proof (spawnAsync_spawns pec env (hd_error args) (tl args) with_logger
                (h ++ executing_log args)) as Hs.
  rewrite H in Hs. exact Hs.
Qed.

(** C6. On a Windows target, when the direct attempt fails with a
    permission-denied signature, [execSudo] spawns no other command and
    throws the very error the direct attempt failed with. *)
Theorem execSudo_windows_rethrows args h error es0 :
  platform env = "win32" ->
  spawnAsync pec env (hd_error args) (tl args) with_logger (h ++ executing_log args)%list
    = (inl error, es0) ->
  is_permission_denied error = true ->
  fst (execSudo pec env args h) = inl error /\
  spawns (snd (execSudo pec env args h)) = [direct args].
Proof.
  intros Hwin Hdirect Hdenied.
  pose proof (spawnAsync_spawns pec env (hd_error args) (tl args) with_logger
                (h ++ executing_log args)) as Hs.
  rewrite Hdirect in Hs. simpl in Hs.
  assert (Hw : String.eqb (platform env) "win32" = true)
    by (rewrite Hwin; reflexivity).
  rewrite execSudo_eq, Hdirect, Hdenied, Hw. cbn [fst snd negb].
  split; [reflexivity|].
  rewrite !spawns_app, Hs. reflexivity.
Qed.

(** C5. On a target other than Windows, when the direct attempt fails with
    a permission-denied signature, [execSudo] first looks [sudo] up on the
    PATH. When it is absent the run ends there with the "requires elevated
    privileges" error, which is not one of the generic failures of
    [spawnAsync]. When it is present the next command is the one
    non-interactive retry [sudo -n ...]; after it the run ends, or makes the
    interactive attempt as its last command. *)
Theorem execSudo_escalation args h error es0 :
  platform env <> "win32" ->
  spawnAsync pec env (hd_error args) (tl args) with_logger (h ++ executing_log args)%list
    = (inl error, es0) ->
  is_permission_denied error = true ->
  let h1 := ((h ++ executing_log args ++ es0) ++ retrying_log)%list in
  let run := execSudo pec env args h in
  exists (sudoAvailable : bool) (es1 : list Event),
    checkCommand pec env "sudo" h1 = (inr sudoAvailable, es1) /\
    if sudoAvailable then
      spawns (snd run) = [direct args; which_sudo; sudo_noninteractive args] \/
      spawns (snd run) =
        [direct args; which_sudo; sudo_noninteractive args; sudo_interactive args]
    else
      fst run = inl (ProcessError pec no_sudo_message) /\
      spawns (snd run) = [direct args; which_sudo] /\
      generic_failure no_sudo_message = false.
Proof.
  intros Hplat Hdirect Hdenied h1 run.
  assert (Hw : String.eqb (platform env) "win32" = false)
    by (now apply String.eqb_neq).
  pose proof (spawnAsync_spawns pec env (hd_error args) (tl args) with_logger
                (h ++ executing_log args)) as Hs0.
  rewrite Hdirect in Hs0. simpl in Hs0.
  destruct (checkCommand_total pec env "sudo" h1) as (avail & es1 & Hcheck & Hs1).
  rewrite Hw in Hs1.
  exists avail, es1. split; [exact Hcheck|].
  subst run. rewrite execSudo_eq, Hdirect, Hdenied, Hw. cbn [negb]. cbv zeta.
  fold h1. rewrite Hcheck.
  destruct avail.
  - pose proof (spawnAsync_spawns pec env (Some "sudo") ("-n" :: args) with_logger
                  (h1 ++ es1)) as Hs2.
    destruct (spawnAsync pec env (Some "sudo") ("-n" :: args) with_logger _)
      as [[sudoError|res] es2]; simpl in Hs2.
    + destruct (negb (stdin_isTTY env) || requiresPassword (err_message sudoError)).
      * left. cbn [fst snd]. rewrite !spawns_app, Hs0, Hs1, Hs2. reflexivity.
      * pose proof (spawnAsync_spawns pec env (Some "sudo") args with_logger_no_capture
                      (((h1 ++ es1) ++ es2) ++ interactive_log)) as Hs3.
        destruct (spawnAsync pec env (Some "sudo") args with_logger_no_capture _)
          as [x3 es3]; simpl in Hs3.
        right. cbn [fst snd]. rewrite !spawns_app, Hs0, Hs1, Hs2, Hs3. reflexivity.
    + left. cbn [fst snd]. rewrite !spawns_app, Hs0, Hs1, Hs2. reflexivity.
  - cbn [fst snd]. split; [reflexivity|]. split; [|reflexivity].
    rewrite !spawns_app, Hs0, Hs1. reflexivity.
Qed.

(** What the guard after a failed non-interactive retry lets through. On
    a target other than Windows, when [sudo -n ...] fails: if standard
    input is not a terminal, or the message of the failure contains
    "password", "a terminal is required" or "no tty", [execSudo] throws the
    "non-interactive sudo is not available" error and spawns nothing more;
    otherwise (on a terminal, and no such message) it makes one more
    attempt, [sudo ...] without [-n] and with its output not captured, and
    ends as that attempt ends. So the attempt announced as "Sudo requires
    password, trying interactive sudo..." is made only when the failure
    did not mention a password. *)
Lemma execSudo_after_noninteractive args h error es0 es1 sudoError es2 :
  platform env <> "win32" ->
  spawnAsync pec env (hd_error args) (tl args) with_logger (h ++ executing_log args)%list
    = (inl error, es0) ->
  is_permission_denied error = true ->
  let h1 := ((h ++ executing_log args ++ es0) ++ retrying_log)%list in
  checkCommand pec env "sudo" h1 = (inr true, es1) ->
  spawnAsync pec env (Some "sudo") ("-n" :: args) with_logger (h1 ++ es1)%list
    = (inl sudoError, es2) ->
  let run := execSudo pec env args h in
  if negb (stdin_isTTY env) || requiresPassword (err_message sudoError) then
    fst run = inl (ProcessError pec no_noninteractive_sudo_message) /\
    spawns (snd run) = [direct args; which_sudo; sudo_noninteractive args]
  else
    fst run = fst (spawnAsync pec env (Some "sudo") args with_logger_no_capture
                     (((h1 ++ es1) ++ es2) ++ interactive_log)%list) /\
    spawns (snd run) =
      [direct args; which_sudo; sudo_noninteractive args; sudo_interactive args].
Proof.
  intros Hplat Hdirect Hdenied h1 Hcheck Hsudo run.
  assert (Hw : String.eqb (platform env) "win32" = false)
    by (now apply String.eqb_neq).
  pose proof (spawnAsync_spawns pec env (hd_error args) (tl args) with_logger
                (h ++ executing_log args)) as Hs0.
  rewrite Hdirect in Hs0. simpl in Hs0.
  destruct (checkCommand_total pec env "sudo" h1) as (avail & es1' & Hcheck' & Hs1).
  rewrite Hcheck in Hcheck'. injection Hcheck' as <- <-.
  rewrite Hw in Hs1.
  pose proof (spawnAsync_spawns pec env (Some "sudo") ("-n" :: args) with_logger
                (h1 ++ es1)) as Hs2.
  rewrite Hsudo in Hs2. simpl in Hs2.
  subst run. rewrite execSudo_eq, Hdirect, Hdenied, Hw. cbn [negb]. cbv zeta.
  fold h1. rewrite Hcheck, Hsudo.
  destruct (negb (stdin_isTTY env) || requiresPassword (err_message sudoError)).
  - cbn [fst snd]. split; [reflexivity|]. rewrite !spawns_app, Hs0, Hs1, Hs2. reflexivity.
  - pose proof (spawnAsync_spawns pec env (Some "sudo") args with_logger_no_capture
                  (((h1 ++ es1) ++ es2) ++ interactive_log)) as Hs3.
    destruct (spawnAsync pec env (Some "sudo") args with_logger_no_capture _)
      as [x3 es3]; simpl in Hs3.
    cbn [fst snd]. split; [reflexivity|].
    rewrite !spawns_app, Hs0, Hs1, Hs2, Hs3. reflexivity.
Qed.

End RunnerClaims.

Section RunnerScenarios.
Import JS Process Obs.

(** C7 at two concrete commands: [ls -l] closing with code 0 after a
    warning, and closing with code 2. *)
Lemma spawnAsync_exit_code_witness :
  fst (spawnAsync None (plain_host 0 "warning") (Some "ls") ["-l"] with_logger [])
    = inr (mkResult ("ok" ++ nl) "warning" (Some 0%Z)) /\
  exists message,
    fst (spawnAsync None (plain_host 2 "fatal") (Some "ls") ["-l"] with_logger [])
      = inl (ProcessError None message) /\
    includes message "fatal" = true.
Proof.
  split.
  - pose proof (spawnAsync_exit_code None (plain_host 0 "warning") (Some "ls") ["-l"]
                  with_logger [] _ _ eq_refl) as H.
    cbv zeta in H. destruct H as (_ & _ & H & _).
    destruct (H eq_refl) as (H1 & _). exact H1.
  - pose proof (spawnAsync_exit_code None (plain_host 2 "fatal") (Some "ls") ["-l"]
                  with_logger [] _ _ eq_refl) as H.
    cbv zeta in H. destruct H as (_ & _ & _ & H).
    destruct (H ltac:(discriminate)) as (message & H1 & _ & _ & _ & _ & H2 & _).
    exists message. split; [exact H1 | exact H2].
Defined.

(** C6 at [mkdir] denied on a Windows host. *)
Lemma execSudo_windows_rethrows_witness :
  spawns (snd (execSudo None windows_host ["mkdir"; "C:\ProgramData\ssh"] []))
    = [direct ["mkdir"; "C:\ProgramData\ssh"]].
Proof.
  exact (proj2 (execSudo_windows_rethrows None windows_host
                  ["mkdir"; "C:\ProgramData\ssh"] [] _ _ eq_refl eq_refl eq_refl)).
Defined.

(** C5 at [mkdir /etc/ssh] denied on a host without [sudo]. *)
Lemma execSudo_escalation_witness :
  fst (execSudo None bare_host ["mkdir"; "/etc/ssh"] [])
    = inl (ProcessError None no_sudo_message).
Proof.
  destruct (execSudo_escalation None bare_host ["mkdir"; "/etc/ssh"] [] _ _
              ltac:(discriminate) eq_refl eq_refl) as (avail & es1 & Hcheck & Hrun).
  vm_compute in Hcheck. injection Hcheck as <- _.
  exact (proj1 Hrun).
Defined.

(** C1, where [execSudo] departs from it: [apt-get update] on a host where
    [sudo -n] answers that a password is required, with standard input on
    a terminal. The retry fails for a password reason and the session is
    interactive, yet [execSudo] makes no interactive attempt and throws
    the "non-interactive sudo is not available" error. *)
Theorem execSudo_password_on_terminal :
  let env := password_host true in
  let args := ["apt-get"; "update"] in
  let run := execSudo None env args [] in
  stdin_isTTY env = true /\
  (exists sudoError es,
     spawnAsync None env (Some "sudo") ("-n" :: args) with_logger [] = (inl sudoError, es) /\
     includes (err_message sudoError) "password" = true) /\
  fst run = inl (ProcessError None no_noninteractive_sudo_message) /\
  spawns (snd run) = [direct args; which_sudo; sudo_noninteractive args] /\
  ~ In (sudo_interactive args) (spawns (snd run)).
Proof.
  cbv zeta. split; [reflexivity|]. split.
  - eexists. eexists. split; [vm_compute; reflexivity | vm_compute; reflexivity].
  - split; [vm_compute; reflexivity|]. split; [vm_compute; reflexivity|].
    vm_compute. intros [H|[H|[H|[]]]]; discriminate H.
Qed.

(** The guard at the same host, on a terminal and off it. *)
Example execSudo_after_noninteractive_at_password_host :
  fst (execSudo None (password_host true) ["apt-get"; "update"] [])
    = inl (ProcessError None no_noninteractive_sudo_message) /\
  fst (execSudo None (password_host false) ["apt-get"; "update"] [])
    = inl (ProcessError None no_noninteractive_sudo_message).
Proof.
  split.
  - exact (proj1 (execSudo_after_noninteractive None (password_host true)
                    ["apt-get"; "update"] [] _ _ _ _ _
                    ltac:(discriminate) eq_refl eq_refl eq_refl eq_refl)).
  - exact (proj1 (execSudo_after_noninteractive None (password_host false)
                    ["apt-get"; "update"] [] _ _ _ _ _
                    ltac:(discriminate) eq_refl eq_refl eq_refl eq_refl)).
Defined.

End RunnerScenarios.

(** ** The configuration-document renderer *)
Section SshdFacts.
Import JS Sshd Obs.

Lemma trimEnd_truthy (s : string) : truthy (trimEnd s) = negb (is_blank s).
Proof.
  induction s as [|c s IH]; [reflexivity|].
  simpl. destruct (trimEnd s) as [|d t]; simpl in IH.
  - apply (f_equal negb) in IH. rewrite negb_involutive in IH. rewrite <- IH.
    rewrite andb_true_r. now destruct (is_whitespace c).
  - apply (f_equal negb) in IH. rewrite negb_involutive in IH. rewrite <- IH.
    now rewrite andb_false_r.
Qed.

Lemma trimStart_blank (s : string) : is_blank (trimStart s) = is_blank s.
Proof.
  induction s as [|c s IH]; [reflexivity|].
  simpl. destruct (is_whitespace c) eqn:Hc; [exact IH|].
  simpl. now rewrite Hc.
Qed.

(** [u.trim()] is truthy exactly when [u] is not blank. *)
Lemma trim_truthy (s : string) : truthy (trim s) = negb (is_blank s).
Proof. unfold trim. now rewrite trimEnd_truthy, trimStart_blank. Qed.

(** The users on the [AllowUsers] line are the fields of the string, cut
    at single spaces, that are not blank, in their order. *)
Lemma generateSSHDConfig_users (config : Config) (s : string) :
  allowUsers config = JString s ->
  generateSSHDConfig config =
    inr (unlines (document_lines config
                    (filter (fun u => negb (is_blank u)) (split " " s)))).
Proof.
  intros H. unfold generateSSHDConfig. rewrite H. cbn [allowUsers_split].
  now rewrite (filter_ext _ (fun u => negb (is_blank u)) trim_truthy).
Qed.

(** An array makes the renderer throw, whatever it holds. *)
Lemma generateSSHDConfig_array (config : Config) (l : list string) :
  allowUsers config = JArray l ->
  generateSSHDConfig config = inl (TypeError "config.allowUsers.split is not a function").
Proof. intros H. unfold generateSSHDConfig. now rewrite H. Qed.

(** Against C3 as the specification words it: on the sequence
    ["alice"; ""; " "; "bob"] the renderer throws a TypeError and renders
    no line at all. *)
Lemma generateSSHDConfig_sequence_throws :
  generateSSHDConfig
    (mkConfig 2222 "auto" (JArray ["alice"; ""; " "; "bob"]) "/workspace" false "/home/ci")
  = inl (TypeError "config.allowUsers.split is not a function").
Proof. reflexivity. Qed.

(** C3, as the code has it. [allowUsers] is a string cut at single
    spaces: for alice, two spaces, a tab, a space, bob (the fields "alice",
    "", a tab and "bob") the document is the template over the users alice
    and bob, and its seventeenth line is "AllowUsers alice bob": the empty
    and the white-space field are dropped and the order is kept. *)
Theorem generateSSHDConfig_allowUsers_line (config : Config) :
  allowUsers config = JString ("alice  " ++ tab ++ " bob") ->
  split " " ("alice  " ++ tab ++ " bob") = ["alice"; ""; tab; "bob"] /\
  generateSSHDConfig config = inr (unlines (document_lines config ["alice"; "bob"])) /\
  nth 16 (document_lines config ["alice"; "bob"]) "" = "AllowUsers alice bob".
Proof.
  intros H. split; [reflexivity|]. split; [|reflexivity].
  rewrite (generateSSHDConfig_users config _ H). reflexivity.
Qed.

Lemma generateSSHDConfig_allowUsers_line_witness :
  generateSSHDConfig
    (mkConfig 2222 "auto" (JString ("alice  " ++ tab ++ " bob")) "/workspace" false "/home/ci")
  = inr (unlines (document_lines
                    (mkConfig 2222 "auto" (JString ("alice  " ++ tab ++ " bob"))
                       "/workspace" false "/home/ci")
                    ["alice"; "bob"])).
Proof.
  exact (proj1 (proj2 (generateSSHDConfig_allowUsers_line
    (mkConfig 2222 "auto" (JString ("alice  " ++ tab ++ " bob")) "/workspace" false "/home/ci")
    eq_refl))).
Defined.

(** The renderer reads the port, the allowed users, the force-command
    switch and, when the switch is off, the default working directory;
    nothing else. *)
Lemma generateSSHDConfig_reads (c1 c2 : Config) :
  port c1 = port c2 ->
  allowUsers c1 = allowUsers c2 ->
  disableForceCwd c1 = disableForceCwd c2 ->
  (disableForceCwd c1 = false -> defaultCwd c1 = defaultCwd c2) ->
  generateSSHDConfig c1 = generateSSHDConfig c2.
Proof.
  intros Hp Ha Hd Hc. unfold generateSSHDConfig. rewrite <- Ha.
  destruct (allowUsers_split (allowUsers c1)) as [e|fields]; [reflexivity|].
  unfold document_lines, forceCommandLine. rewrite <- Hp, <- Hd.
  destruct (disableForceCwd c1); [reflexivity|].
  now rewrite (Hc eq_refl).
Qed.

(** C8. Two runs of the renderer on identical Config values give the same
    outcome, byte for byte: the document is a function of the Config, and
    of no more of it than [generateSSHDConfig_reads] lists. *)
Theorem generateSSHDConfig_deterministic (c1 c2 : Config) :
  c1 = c2 -> generateSSHDConfig c1 = generateSSHDConfig c2.
Proof.
  intros E. apply generateSSHDConfig_reads; now rewrite E.
Qed.

Lemma generateSSHDConfig_deterministic_witness :
  generateSSHDConfig sample_config = generateSSHDConfig sample_config.
Proof. exact (generateSSHDConfig_deterministic sample_config sample_config eq_refl). Defined.

End SshdFacts.

(** ** The orchestrator *)
Section EventFacts.
Import Execute Obs.

Lemma returned_app a b : returned (a ++ b) = (returned a ++ returned b)%list.
Proof. induction a as [|[[e|s|s] r] a IH]; simpl; congruence. Qed.

Lemma called_app a b : called (a ++ b) = (called a ++ called b)%list.
Proof. induction a as [|[[e|s|s] r] a IH]; simpl; congruence. Qed.

Lemma pending_from_app p a b :
  pending_from p (a ++ b) = pending_from (pending_from p a) b.
Proof. revert p. induction a as [|[[e|s|s] r] a IH]; simpl; intros; auto. Qed.

Lemma externals_app a b : externals (a ++ b) = (externals a ++ externals b)%list.
Proof. induction a as [|[[e|s|s] r] a IH]; simpl; congruence. Qed.

Lemma returned_lifted r es : returned (lifted r es) = [].
Proof. induction es; simpl; auto. Qed.

Lemma called_lifted r es : called (lifted r es) = [].
Proof. induction es; simpl; auto. Qed.

Lemma pending_from_lifted p r es : pending_from p (lifted r es) = p.
Proof. induction es; simpl; auto. Qed.

Lemma externals_lifted r es : externals (lifted r es) = es.
Proof. induction es; simpl; congruence. Qed.

Lemma lifted_app r a b : lifted r (a ++ b) = (lifted r a ++ lifted r b)%list.
Proof. apply map_app. Qed.

Lemma observed_app I done a b :
  observed I done (a ++ b) <-> observed I done a /\ observed I (done ++ returned a) b.
Proof.
  revert done. induction a as [|[e r] a IH]; intros done; simpl.
  - rewrite app_nil_r. tauto.
  - rewrite IH. destruct e as [e|s|s]; simpl; rewrite <- ?app_assoc; simpl; tauto.
Qed.

Lemma observed_lifted (I : list Stage -> ExecutionResult -> Prop) done r es :
  I done r -> observed I done (lifted r es).
Proof. intros H. induction es; simpl; auto. Qed.

(** [observed] spelled out: at an event, [I] holds of the stages that
    returned before it. *)
Lemma observed_split I done es pre e r post :
  observed I done es -> es = (pre ++ (e, r) :: post)%list ->
  I (done ++ returned pre)%list r.
Proof.
  intros H ->. apply observed_app in H. destruct H as [_ H]. exact (proj1 H).
Qed.

Lemma observed_Forall (I : list Stage -> ExecutionResult -> Prop)
    (P : ExecutionResult -> Prop) done es :
  (forall d r, I d r -> P r) ->
  observed I done es -> Forall (fun s => P (snd s)) es.
Proof.
  intros HIP. revert done. induction es as [|[e r] es IH]; intros done H; constructor.
  - exact (HIP _ _ (proj1 H)).
  - exact (IH _ (proj2 H)).
Qed.

Lemma result_after_snoc done s :
  result_after (done ++ [s]) = record_stage (result_after done) s.
Proof. unfold result_after. now rewrite fold_left_app. Qed.

Lemma steps_record_stages done r :
  steps (fold_left record_stage done r) = (steps r ++ map stage_name done)%list.
Proof.
  revert r. induction done as [|s done IH]; intros r; simpl.
  - now rewrite app_nil_r.
  - rewrite IH. destruct s; simpl; now rewrite <- app_assoc.
Qed.

Lemma steps_result_after done : steps (result_after done) = map stage_name done.
Proof. unfold result_after. now rewrite steps_record_stages. Qed.

Lemma flags_agree_record r s : flags_agree r -> flags_agree (record_stage r s).
Proof.
  unfold flags_agree. intros (Hi & Hc & Hk & Hs).
  destruct s; simpl; rewrite !in_app_iff; simpl;
    repeat split; intros H; auto;
    try (apply Hi in H); try (apply Hc in H); try (apply Hk in H); try (apply Hs in H);
    auto;
    try (destruct H as [H|[H|[]]]; try discriminate H;
         first [now apply Hi | now apply Hc | now apply Hk | now apply Hs]).
Qed.

Lemma flags_agree_after done : flags_agree (result_after done).
Proof.
  unfold result_after.
  assert (H : flags_agree fresh_result).
  { unfold flags_agree. simpl. repeat split; intros H; (discriminate H || elim H). }
  revert H. generalize fresh_result. induction done as [|s done IH]; intros r H; simpl.
  - exact H.
  - apply IH. now apply flags_agree_record.
Qed.

Lemma flags_agree_success r : flags_agree r -> flags_agree (set_success r).
Proof. intros H. exact H. Qed.

Lemma stage_name_inj s1 s2 : stage_name s1 = stage_name s2 -> s1 = s2.
Proof. destruct s1, s2; simpl; intros H; (reflexivity || discriminate H). Qed.

Lemma expected_stages_names b : map stage_name (expected_stages b) = expected_steps b.
Proof. now destruct b. Qed.

Lemma expected_stages_NoDup b : NoDup (expected_stages b).
Proof.
  destruct b; simpl; repeat constructor; simpl; intuition discriminate.
Qed.

End EventFacts.

Section OrchestratorFacts.
Import JS Process Sshd Execute Obs.

Lemma obind_assoc {A B C} (m : Orch A) (f : A -> Orch B) (g : B -> Orch C) r h :
  obind (obind m f) g r h = obind m (fun a => obind (f a) g) r h.
Proof.
  unfold obind. destruct (m r h) as [[[e|a] r1] es1]; [reflexivity|].
  destruct (f a r1 _) as [[[e|b] r2] es2]; [reflexivity|].
  rewrite externals_app, app_assoc.
  destruct (g b r2 _) as [[y r3] es3]. now rewrite app_assoc.
Qed.

Lemma tracked_assoc {A B C} (m : Orch A) (f : A -> Orch B) (g : B -> Orch C) b done r h :
  tracked b done (obind m (fun a => obind (f a) g) r h) ->
  tracked b done (obind (obind m f) g r h).
Proof. now rewrite obind_assoc. Qed.

Lemma tracked_ret {A B} (a : A) (f : A -> Orch B) b done r h :
  (forall h', tracked b done (f a r h')) ->
  tracked b done (obind (oret a) f r h).
Proof.
  intros H. unfold obind, oret. specialize (H (h ++ externals [])%list).
  now destruct (f a r _) as [[y r2] es2].
Qed.

Lemma tracked_modify {B} (g : ExecutionResult -> ExecutionResult) (f : unit -> Orch B)
    b done r h :
  (forall h', tracked b done (f tt (g r) h')) ->
  tracked b done (obind (modify g) f r h).
Proof.
  intros H. unfold obind, modify. specialize (H (h ++ externals [])%list).
  now destruct (f tt (g r) _) as [[y r2] es2].
Qed.

Lemma tracked_info {B} (msg : string) (f : unit -> Orch B) b done r h :
  r = result_after done ->
  (forall h', tracked b done (f tt r h')) ->
  tracked b done (obind (info msg) f r h).
Proof.
  intros Hr H. unfold obind, info, lift, log, emit.
  specialize (H (h ++ externals (lifted r [EvLog Info msg]))%list).
  destruct (f tt r _) as [[y r2] es2].
  unfold tracked in *. simpl in *. tauto.
Qed.

Lemma tracked_info_last (msg : string) b done r h :
  r = result_after done ->
  done = expected_stages b ->
  tracked b done (info msg r h).
Proof.
  intros Hr Hd. unfold info, lift, log, emit, tracked. simpl.
  rewrite !app_nil_r. repeat split; auto.
  exists []. now rewrite app_nil_r.
Qed.

Lemma tracked_await {B} (s : Stage) (p : Proc unit) (f : unit -> Orch B) b done r h :
  r = result_after done ->
  is_prefix (done ++ [s]) (expected_stages b) ->
  (forall h', tracked b (done ++ [s]) (f tt r h')) ->
  tracked b done (obind (await_stage s p) f r h).
Proof.
  intros Hr Hp H. unfold await_stage, obind, mark, lift.
  cbn [externals app].
  destruct (p _) as [[e|[]] es].
  - unfold tracked. cbn [fst snd].
    cbn [observed returned called pending pending_from app].
    rewrite returned_lifted, called_lifted, pending_from_lifted, app_nil_r.
    repeat split; eauto using observed_lifted.
  - match goal with |- context [f tt r ?h'] => specialize (H h') end.
    destruct (f tt r _) as [[y r2] es2].
    unfold tracked in *. cbn [fst snd] in *.
    destruct H as (Hobs & Hres & Hcall & Hpre & Hend).
    unfold pending in *. cbn [app observed returned called pending_from].
    rewrite <- !app_assoc.
    rewrite !returned_app, !called_app, !pending_from_app,
      returned_lifted, called_lifted, pending_from_lifted.
    cbn [app returned called pending_from].
    rewrite <- app_assoc in Hres, Hpre, Hend. cbn [app] in Hres, Hpre, Hend.
    repeat split.
    + exact Hr.
    + apply observed_app. split; [now apply observed_lifted|].
      rewrite returned_lifted, app_nil_r. cbn [observed app]. split; [exact Hr|exact Hobs].
    + exact Hres.
    + now rewrite Hcall.
    + exact Hpre.
    + exact Hend.
Qed.

Ltac track :=
  repeat first
    [ apply tracked_info; [reflexivity | intros ?]
    | apply tracked_await; [reflexivity | eexists; reflexivity | intros ?]
    | apply tracked_modify; intros ?
    | apply tracked_ret; intros ?
    | apply tracked_info_last; reflexivity
    | apply tracked_assoc ].

(** Each OS branch of [execute] keeps the [result] object in step with the
    stages that returned. *)
Lemma run_stages_tracked keys executor plan config h :
  tracked (needsInstall plan) [] (run_stages keys executor plan config fresh_result h).
Proof.
  unfold run_stages. destruct (needsInstall plan); track.
Qed.

Variables (pec : option string) (env : Env) (lin win : Executor).
Variable keys : Config -> Proc unit.

Ltac step_info :=
  unfold obind at 1; unfold info at 1; unfold lift at 1; unfold log at 1; unfold emit at 1;
  cbn [lifted map externals].

(** [execute] as a function of the outcome of the elevation query and of
    the stages. *)
Lemma execute_eq plan config h :
  execute pec env lin win keys plan config h =
  let before := lifted fresh_result (opening_log plan) in
  let h0 := (h ++ opening_log plan)%list in
  if String.eqb (os plan) "linux" then
    let '(access, es_s) := hasSudoAccess pec env h0 in
    let before := (before ++ lifted fresh_result es_s)%list in
    match access with
    | inl e => failed pec e fresh_result before
    | inr false =>
        failed pec (ProcessError pec insufficient_privileges_message) fresh_result before
    | inr true =>
        finished pec (run_stages keys lin plan config fresh_result (h0 ++ es_s)%list) before
    end
  else if String.eqb (os plan) "windows" then
    finished pec (run_stages keys win plan config fresh_result h0) before
  else (inr (set_success fresh_result), set_success fresh_result, before).
Proof.
  unfold execute, execute_body, otry_catch, opening_log.
  do 3 step_info.
  rewrite <- !app_assoc. cbn [app].
  cbv zeta.
  destruct (String.eqb (os plan) "linux").
  - rewrite obind_assoc. unfold obind at 1. unfold lift at 1.
    destruct (hasSudoAccess pec env _) as [[e|[|]] es_s].
    + unfold failed, obind, lift, log, emit, othrow. cbn [lifted map app].
      now rewrite ?app_nil_r, <- ?app_assoc.
    + cbn [negb]. rewrite obind_assoc. unfold obind at 1. unfold oret at 1.
      unfold obind at 1. cbn [externals].
      rewrite externals_lifted, app_nil_r.
      destruct (run_stages _ _ _ _ _ _) as [[[e|[]] r] es].
      * unfold finished, failed, obind, lift, log, emit, othrow. cbn [lifted map app].
        now rewrite ?app_nil_r, <- ?app_assoc.
      * unfold finished, obind, modify, get. cbn [app].
        now rewrite ?app_nil_r, <- ?app_assoc.
    + cbn [negb]. rewrite obind_assoc. unfold obind at 1. unfold othrow at 1.
      unfold failed, obind, lift, log, emit, othrow. cbn [lifted map app].
      now rewrite ?app_nil_r, <- ?app_assoc.
  - destruct (String.eqb (os plan) "windows").
    + unfold obind at 1.
      destruct (run_stages _ _ _ _ _ _) as [[[e|[]] r] es].
      * unfold finished, failed, obind, lift, log, emit, othrow. cbn [lifted map app].
        now rewrite ?app_nil_r, <- ?app_assoc.
      * unfold finished, obind, modify, get. cbn [app].
        now rewrite ?app_nil_r, <- ?app_assoc.
    + unfold obind, oret, modify, get. reflexivity.
Qed.

Lemma well_run_failed_early b e evs :
  well_run b (failed pec e fresh_result (lifted fresh_result evs)).
Proof.
  unfold well_run, failed, pending. cbn [fst snd].
  rewrite <- lifted_app, returned_lifted, called_lifted, pending_from_lifted.
  repeat split.
  - now apply observed_lifted.
  - now exists (expected_stages b).
  - now right.
Qed.

Lemma well_run_no_stage b evs :
  well_run b (inr (set_success fresh_result), set_success fresh_result,
              lifted fresh_result evs).
Proof.
  unfold well_run, pending. cbn [fst snd].
  rewrite returned_lifted, called_lifted, pending_from_lifted.
  repeat split.
  - now apply observed_lifted.
  - now exists (expected_stages b).
Qed.

Lemma well_run_finished b out evs :
  tracked b [] out -> well_run b (finished pec out (lifted fresh_result evs)).
Proof.
  destruct out as [[x r] es]. unfold tracked, pending. cbn [fst snd app].
  intros (Hobs & Hres & Hcall & Hpre & Hend).
  assert (Hbefore : observed in_sync [] (lifted fresh_result evs ++ es)).
  { apply observed_app. split; [now apply observed_lifted|].
    now rewrite returned_lifted. }
  destruct x as [e|[]]; unfold finished, failed, well_run, pending; cbn [fst snd].
  - rewrite !returned_app, !called_app, !pending_from_app,
      !returned_lifted, !called_lifted, !pending_from_lifted, !app_nil_r.
    cbn [app]. repeat split; auto.
    apply observed_app. split; [exact Hbefore|].
    apply observed_lifted. cbn [app].
    now rewrite returned_app, returned_lifted.
  - rewrite !returned_app, !called_app, !pending_from_app,
      !returned_lifted, !called_lifted, !pending_from_lifted.
    cbn [app]. repeat split; auto.
    + now rewrite Hres.
    + exact (proj2 Hend).
Qed.

(** Every run of [execute] is a [well_run]. *)
Lemma execute_well_run plan config h :
  well_run (needsInstall plan) (execute pec env lin win keys plan config h).
Proof.
  rewrite execute_eq. cbv zeta.
  destruct (String.eqb (os plan) "linux").
  - destruct (hasSudoAccess pec env _) as [[e|[|]] es_s]; rewrite <- lifted_app.
    + apply well_run_failed_early.
    + apply well_run_finished, run_stages_tracked.
    + apply well_run_failed_early.
  - destruct (String.eqb (os plan) "windows").
    + apply well_run_finished, run_stages_tracked.
    + apply well_run_no_stage.
Qed.

End OrchestratorFacts.

Section OrchestratorClaims.
Import JS Process Sshd Execute Obs.

Variables (pec : option string) (env : Env) (lin win : Executor).
Variable keys : Config -> Proc unit.

Lemma prefix_NoDup {A} (l1 l2 : list A) : is_prefix l1 l2 -> NoDup l2 -> NoDup l1.
Proof. intros [k ->] H. exact (NoDup_app_remove_r _ _ H). Qed.

Lemma stage_names_NoDup (l : list Stage) : NoDup l -> NoDup (map stage_name l).
Proof.
  induction 1 as [|s l Hin Hnd IH]; simpl; constructor; [|exact IH].
  intros H. apply in_map_iff in H. destruct H as (s' & Hs & Hin').
  apply stage_name_inj in Hs. now subst s'.
Qed.

Lemma stage_name_In s (l : list Stage) : In (stage_name s) (map stage_name l) -> In s l.
Proof.
  intros H. apply in_map_iff in H. destruct H as (s' & Hs & Hin).
  apply stage_name_inj in Hs. now subst s'.
Qed.

(** C2. For every run of [execute]: the steps list of the [result] object
    (the one returned on success, the one built so far on failure) is a
    prefix of the steps of a complete run, with "installed" only when
    [plan.needsInstall] holds, and has no name twice. At every event of
    the run, and at its end, the list holds exactly the names of the
    stages whose function returned before. On failure, either a stage was
    called and did not return, and its name is not in the list, or no
    stage was called and the list is empty. *)
Theorem execute_steps plan config h :
  let out := execute pec env lin win keys plan config h in
  let r := snd (fst out) in
  let es := snd out in
  is_prefix (steps r) (expected_steps (needsInstall plan)) /\
  (In "installed" (steps r) -> needsInstall plan = true) /\
  NoDup (steps r) /\
  (forall pre e r' post,
     es = (pre ++ (e, r') :: post)%list -> steps r' = map stage_name (returned pre)) /\
  steps r = map stage_name (returned es) /\
  (forall v, fst (fst out) = inr v -> v = r) /\
  (forall err, fst (fst out) = inl err ->
     (exists s, pending es = Some s /\ ~ In (stage_name s) (steps r)) \/
     (called es = [] /\ steps r = [])).
Proof.
  intros out r es.
  pose proof (execute_well_run pec env lin win keys plan config h) as H.
  fold out in H. unfold well_run in H. cbv zeta in H. fold r es in H.
  destruct H as (Hobs & Hcall & Hpre & Hend).
  assert (Hsteps : steps r = map stage_name (returned es)).
  { destruct (fst (fst out)) as [e|v].
    - destruct Hend as [-> _]. apply steps_result_after.
    - destruct Hend as (_ & -> & _). apply steps_result_after. }
  assert (Hprefix : is_prefix (returned es) (expected_stages (needsInstall plan))).
  { destruct Hpre as [k Hk]. rewrite Hcall, <- app_assoc in Hk.
    eexists. exact Hk. }
  assert (Hnames : is_prefix (steps r) (expected_steps (needsInstall plan))).
  { destruct Hprefix as [k Hk]. exists (map stage_name k).
    now rewrite Hsteps, <- map_app, <- Hk, expected_stages_names. }
  split; [exact Hnames|]. split; [|split; [|split; [|split; [exact Hsteps|split]]]].
  - intros Hin. destruct (needsInstall plan); [reflexivity|].
    destruct Hnames as [k Hk]. exfalso.
    assert (Hin' : In "installed" (expected_steps false))
      by (rewrite Hk; apply in_or_app; now left).
    simpl in Hin'. destruct Hin' as [H|[H|[H|[]]]]; discriminate H.
  - rewrite Hsteps. apply stage_names_NoDup.
    exact (prefix_NoDup _ _ Hprefix (expected_stages_NoDup _)).
  - intros pre e r' post Hes.
    pose proof (observed_split _ _ _ _ _ _ _ Hobs Hes) as Hsync.
    cbn [app] in Hsync. rewrite Hsync. apply steps_result_after.
  - intros v Hv. rewrite Hv in Hend. exact (proj1 Hend).
  - intros err Herr. rewrite Herr in Hend. destruct Hend as [_ [[s Hs]|Hnone]].
    + left. exists s. split; [exact Hs|].
      rewrite Hsteps. intros Hin. apply stage_name_In in Hin.
      rewrite Hs in Hcall. cbn [opt_list] in Hcall. rewrite Hcall in Hpre.
      pose proof (prefix_NoDup _ _ Hpre (expected_stages_NoDup _)) as Hnd.
      apply NoDup_remove_2 in Hnd. rewrite app_nil_r in Hnd. now apply Hnd.
    + right. split; [exact Hnone|].
      rewrite Hsteps. rewrite Hnone in Hcall.
      symmetry in Hcall. apply app_eq_nil in Hcall. now rewrite (proj1 Hcall).
Qed.

(** C10. At every event of a run of [execute], and when the run is over,
    each stage flag of the [result] object is true exactly when the name
    of its stage is in [steps]. *)
Theorem execute_flags plan config h :
  let out := execute pec env lin win keys plan config h in
  Forall (fun s : Snapshot => flags_agree (snd s)) (snd out) /\
  flags_agree (snd (fst out)).
Proof.
  intros out.
  pose proof (execute_well_run pec env lin win keys plan config h) as H.
  fold out in H. unfold well_run in H. cbv zeta in H.
  destruct H as (Hobs & _ & _ & Hend). split.
  - apply (observed_Forall in_sync flags_agree [] _); [|exact Hobs].
    intros d r ->. apply flags_agree_after.
  - destruct (fst (fst out)) as [e|v].
    + destruct Hend as [-> _]. apply flags_agree_after.
    + destruct Hend as (_ & -> & _). apply flags_agree_success, flags_agree_after.
Qed.

(** C4. On a plan for Linux, [execute] queries [hasSudoAccess] right after
    its opening log lines: the run starts with those lines and the events
    of the query, and no stage function is called among them. When the
    query answers false, [execute] throws the "Insufficient privileges"
    error wrapped as an execution failure; no stage function was called,
    the only commands spawned are those of the query, the [result] object
    is untouched and its steps list is empty. *)
Theorem execute_linux_requires_sudo plan config h :
  os plan = "linux" ->
  let out := execute pec env lin win keys plan config h in
  let query := hasSudoAccess pec env (h ++ opening_log plan)%list in
  (exists rest,
     snd out = (lifted fresh_result (opening_log plan ++ snd query) ++ rest)%list) /\
  called (lifted fresh_result (opening_log plan ++ snd query)%list) = [] /\
  (fst query = inr false ->
     fst (fst out) =
       inl (ProcessError pec ("Execution failed: " ++ insufficient_privileges_message)) /\
     called (snd out) = [] /\
     spawns (externals (snd out)) = spawns (snd query) /\
     snd (fst out) = fresh_result /\
     steps (snd (fst out)) = []).
Proof.
  intros Hos out query.
  assert (Hl : String.eqb (os plan) "linux" = true) by (rewrite Hos; reflexivity).
  subst out. rewrite execute_eq, Hl. cbv zeta. fold query.
  destruct query as [access es_s]. cbn [fst snd].
  rewrite <- lifted_app.
  split; [|split; [apply called_lifted|]].
  - destruct access as [e|[|]].
    + unfold failed. cbn [snd]. eauto.
    + destruct (run_stages _ _ _ _ _ _) as [[[e|[]] r] es];
        unfold finished, failed; cbn [snd]; [|eauto].
      rewrite <- app_assoc. eauto.
    + unfold failed. cbn [snd]. eauto.
  - intros ->. unfold failed. cbn [fst snd].
    rewrite called_app, externals_app, !called_lifted, !externals_lifted, spawns_app.
    cbn [err_message ProcessError]. repeat split.
    rewrite spawns_app. cbn. now rewrite !app_nil_r.
Qed.

(** C9. On a plan whose OS is neither "linux" nor "windows", [execute]
    makes no elevation query and calls no stage function: the run is the
    opening log lines and nothing else. It returns the [result] object
    with [success] true, an empty steps list and the four stage flags
    false. *)
Theorem execute_unknown_os plan config h :
  os plan <> "linux" ->
  os plan <> "windows" ->
  let out := execute pec env lin win keys plan config h in
  fst (fst out) = inr (mkExecutionResult false false false false [] (Some true)) /\
  snd (fst out) = mkExecutionResult false false false false [] (Some true) /\
  snd out = lifted fresh_result (opening_log plan) /\
  called (snd out) = [] /\
  spawns (externals (snd out)) = [].
Proof.
  intros Hl Hw out.
  apply String.eqb_neq in Hl, Hw.
  subst out. rewrite execute_eq, Hl, Hw. cbv zeta. cbn [fst snd].
  repeat split.
Qed.

End OrchestratorClaims.

Section OrchestratorScenarios.
Import JS Process Sshd Execute Obs.

(** C4 on a Linux host without root and without [sudo]. *)
Lemma execute_linux_requires_sudo_witness :
  fst (fst (sample_run unprivileged_host (mkPlan "linux" true ["install"; "configure"; "start"])))
    = inl (ProcessError None ("Execution failed: " ++ insufficient_privileges_message)) /\
  steps (snd (fst (sample_run unprivileged_host
                     (mkPlan "linux" true ["install"; "configure"; "start"])))) = [].
Proof.
  pose proof (execute_linux_requires_sudo None unprivileged_host
                (sample_linux None unprivileged_host) (sample_windows None unprivileged_host)
                (sample_keys None unprivileged_host)
                (mkPlan "linux" true ["install"; "configure"; "start"]) sample_config []
                eq_refl) as H.
  cbv zeta in H. destruct H as (_ & _ & H).
  destruct (H eq_refl) as (Hx & _ & _ & _ & Hsteps).
  split; [exact Hx | exact Hsteps].
Defined.

(** C9 on a plan for macOS. *)
Lemma execute_unknown_os_witness :
  fst (fst (sample_run unprivileged_host (mkPlan "darwin" true ["install"; "configure"; "start"])))
    = inr (mkExecutionResult false false false false [] (Some true)).
Proof.
  exact (proj1 (execute_unknown_os None unprivileged_host
                  (sample_linux None unprivileged_host) (sample_windows None unprivileged_host)
                  (sample_keys None unprivileged_host)
                  (mkPlan "darwin" true ["install"; "configure"; "start"]) sample_config []
                  ltac:(discriminate) ltac:(discriminate))).
Defined.

(** The scenario of the specification: a Linux plan that needs no install
    runs configure, keys and start, and returns the populated result. *)
Example execute_linux_no_install :
  fst (fst (sample_run (root_host false) (mkPlan "linux" false ["configure"; "start"])))
    = inr (mkExecutionResult false true true true
             ["configured"; "keys-setup"; "service-started"] (Some true)) /\
  called (snd (sample_run (root_host false) (mkPlan "linux" false ["configure"; "start"])))
    = [Configure; KeysSetup; StartService].
Proof. split; vm_compute; reflexivity. Qed.

(** The scenario of the specification: when the configure stage throws,
    [execute] throws an execution failure and "configured" is not
    recorded. *)
Example execute_configure_fails :
  (exists message,
     fst (fst (sample_run (root_host true) (mkPlan "linux" true ["install"; "configure"; "start"])))
       = inl (ProcessError None message) /\
     String.prefix "Execution failed: Command failed: cp " message = true) /\
  snd (fst (sample_run (root_host true) (mkPlan "linux" true ["install"; "configure"; "start"])))
    = mkExecutionResult true false false false ["installed"] None /\
  pending (snd (sample_run (root_host true) (mkPlan "linux" true ["install"; "configure"; "start"])))
    = Some Configure.
Proof.
  split; [|split; vm_compute; reflexivity].
  eexists. split; vm_compute; reflexivity.
Qed.

End OrchestratorScenarios.

(** * Further properties of the code *)

(** ** The process adapter *)
Section RunnerExtras.
Import JS Process Obs.

Variable pec : option string.
Variable env : Env.

Lemma prefix_app_l (n s t : string) :
  String.prefix n s = true -> String.prefix n (s ++ t) = true.
Proof.
  revert s. induction n as [|c n IH]; intros s H; [now destruct (s ++ t)|].
  destruct s as [|d s]; [discriminate H|]. simpl in *.
  destruct (ascii_dec c d); [now apply IH | discriminate H].
Qed.

Lemma includes_app_l (s t n : string) :
  includes s n = true -> includes (s ++ t) n = true.
Proof.
  induction s as [|c s IH]; intros H.
  - simpl in H. rewrite orb_false_r in H. destruct n; [|discriminate H].
    destruct t; reflexivity.
  - change (String.prefix n (String c s) || includes s n = true) in H.
    change (String.prefix n (String c s ++ t) || includes (s ++ t) n = true).
    apply orb_true_iff in H. destruct H as [H|H].
    + now rewrite (prefix_app_l _ _ t H).
    + rewrite (IH H). apply orb_true_r.
Qed.

(** X1. With [captureOutput] off nothing of what the child writes is kept
    or logged: the events of the call are the "Spawning" line and the
    spawn, a result has empty [stdout] and [stderr], and no warning is
    logged whatever the child wrote on its standard error. *)
Theorem spawnAsync_without_capture command args o h :
  captureOutput o = false ->
  let run := spawnAsync pec env command args o h in
  snd run = (spawning_log command args o ++ [EvSpawn (mkInv command args false)])%list /\
  (forall res, fst run = inr res -> stdout res = "" /\ stderr res = "") /\
  logged Warn (snd run) = [].
Proof.
  intros Hc run. subst run. rewrite spawnAsync_eq, Hc. cbv zeta.
  assert (HW : logged Warn (spawning_log command args o) = [])
    by (unfold spawning_log; now destruct (opt_logger o)).
  assert (Hd : data_logs o [] = [])
    by (unfold data_logs; now destruct (opt_logger o && verbose o)).
  destruct (spawn env _ _) as [e|chunks [msg|[[|p|p]|]]]; cbn [fst snd captured];
    rewrite ?Hd, ?app_nil_r, ?andb_false_r; cbn [truthy trim trimStart trimEnd];
    rewrite ?andb_false_r, ?app_nil_r;
    (split; [reflexivity|]); (split; [intros res Hres; inversion Hres; now split|]);
    rewrite logged_app, HW; reflexivity.
Qed.

(** X2. What a call of [spawnAsync] can end in. A result always carries
    exit code 0. A failure is either the very error that [spawn] threw, or
    a ProcessError built by [spawnAsync], whose message starts with
    "Command failed: " or "Failed to spawn ". *)
Theorem spawnAsync_outcomes command args o h :
  let run := spawnAsync pec env command args o h in
  let answer :=
    spawn env (h ++ spawning_log command args o) (mkInv command args (captureOutput o)) in
  (forall res, fst run = inr res ->
     code res = Some 0%Z /\ exists chunks, answer = Runs chunks (CloseEvent (Some 0%Z))) /\
  (forall e, fst run = inl e ->
     answer = Throws e \/
     exists message, e = ProcessError pec message /\ generic_failure message = true).
Proof.
  intros run answer. subst run answer. rewrite spawnAsync_eq. cbv zeta.
  destruct (spawn env _ _) as [e|chunks [msg|[[|p|p]|]]]; cbn [fst]; split;
    intros x Hx; inversion Hx; subst; eauto.
  all: right; eexists; (split; [reflexivity|]); apply orb_true_iff;
    first [ left; apply (prefix_app "Command failed: ")
          | right; apply (prefix_app "Failed to spawn ") ].
Qed.

(** X3. [checkCommand] never throws. It spawns one lookup, [where] on
    Windows and [which] elsewhere, with the command as its only argument,
    and answers true exactly when that lookup closes with code 0. *)
Theorem checkCommand_answer command h :
  let lookup :=
    mkInv (Some (if String.eqb (platform env) "win32" then "where" else "which"))
          [command] true in
  let answer :=
    match spawn env (h ++ spawning_log (inv_command lookup) [command] with_logger) lookup with
    | Runs _ (CloseEvent (Some 0%Z)) => true
    | _ => false
    end in
  fst (checkCommand pec env command h) = inr answer /\
  spawns (snd (checkCommand pec env command h)) = [lookup].
Proof.
  intros lookup answer. rewrite checkCommand_eq. cbv zeta.
  pose proof (spawnAsync_spawns pec env (inv_command lookup) [command] with_logger h) as Hs.
  subst answer. cbn [inv_command lookup] in *.
  rewrite spawnAsync_eq in *. cbv zeta in *.
  destruct (spawn env _ _) as [e|chunks [msg|[[|p|p]|]]]; cbn [fst snd captureOutput with_logger] in *;
    (split; [reflexivity | exact Hs]).
Qed.

(** X4. [hasSudoAccess] answers without running anything on Windows
    (false) and for the root user of another platform (true). *)
Theorem hasSudoAccess_without_probe h :
  platform env = "win32" \/ getuid env = Some 0%Z ->
  hasSudoAccess pec env h =
    (inr (negb (String.eqb (platform env) "win32")), []).
Proof.
  intros H. unfold hasSudoAccess, canSudo.
  destruct (String.eqb (platform env) "win32") eqn:Hw; [reflexivity|].
  destruct H as [H|H]; [rewrite H in Hw; discriminate Hw|].
  now rewrite H.
Qed.

(** The commands [hasSudoAccess] can run. *)
Lemma hasSudoAccess_eq h :
  hasSudoAccess pec env h =
  if String.eqb (platform env) "win32" then (inr false, [])
  else if canSudo env then (inr true, [])
  else
    let '(x1, es1) := checkCommand pec env "sudo" h in
    match x1 with
    | inl e => (inl e, es1)
    | inr false => (inr false, es1)
    | inr true =>
        let '(x2, es2) :=
          spawnAsync pec env (Some "sudo") ["-n"; "-v"] with_logger (h ++ es1)%list in
        (inr (match x2 with inr _ => true | inl _ => false end), (es1 ++ es2)%list)
    end.
Proof.
  unfold hasSudoAccess.
  destruct (String.eqb (platform env) "win32"); [reflexivity|].
  destruct (canSudo env); [reflexivity|].
  unfold bind, try_catch, ret.
  destruct (checkCommand pec env "sudo" h) as [[e|[|]] es1]; cbn [negb];
    try (now rewrite ?app_nil_r).
  destruct (spawnAsync _ _ _ _ _ _) as [[e|r] es2]; now rewrite ?app_nil_r.
Qed.

(** X5. [hasSudoAccess] never throws and never prompts. It runs nothing,
    or [which sudo] alone, or [which sudo] and then [sudo -n -v]; it
    answers true only when it ran nothing or both. *)
Theorem hasSudoAccess_probe h :
  let probe := mkInv (Some "sudo") ["-n"; "-v"] true in
  exists (answer : bool) (es : list Event),
    hasSudoAccess pec env h = (inr answer, es) /\
    (spawns es = [] \/ spawns es = [which_sudo] \/ spawns es = [which_sudo; probe]) /\
    (answer = true -> spawns es = [] \/ spawns es = [which_sudo; probe]).
Proof.
  intros probe. rewrite hasSudoAccess_eq.
  destruct (String.eqb (platform env) "win32") eqn:Hw.
  { exists false, []. split; [reflexivity|]. split; [now left | discriminate]. }
  destruct (canSudo env).
  { exists true, []. split; [reflexivity|]. split; now left. }
  destruct (checkCommand_total pec env "sudo" h) as (b & es1 & Hcheck & Hs1).
  rewrite Hw in Hs1. rewrite Hcheck. destruct b.
  - pose proof (spawnAsync_spawns pec env (Some "sudo") ["-n"; "-v"] with_logger
                  (h ++ es1)) as Hs2.
    destruct (spawnAsync _ _ _ _ _ _) as [x2 es2]. cbn [snd with_logger captureOutput] in Hs2.
    eexists. eexists. split; [reflexivity|].
    rewrite spawns_app, Hs1, Hs2. split; [now right; right | now right].
  - exists false, es1. split; [reflexivity|]. split; [now right; left | discriminate].
Qed.

(** X6. A failure of the direct attempt without a permission-denied
    signature is thrown as it is, on every platform, and nothing else is
    spawned. *)
Theorem execSudo_other_failure args h error es0 :
  spawnAsync pec env (hd_error args) (tl args) with_logger (h ++ executing_log args)%list
    = (inl error, es0) ->
  is_permission_denied error = false ->
  execSudo pec env args h = (inl error, (executing_log args ++ es0)%list) /\
  spawns (snd (execSudo pec env args h)) = [direct args].
Proof.
  intros Hdirect Hdenied.
  pose proof (spawnAsync_spawns pec env (hd_error args) (tl args) with_logger
                (h ++ executing_log args)) as Hs.
  rewrite Hdirect in Hs. cbn [snd with_logger captureOutput] in Hs.
  rewrite execSudo_eq, Hdirect, Hdenied. split; [reflexivity|].
  cbn [snd]. rewrite spawns_app, Hs. reflexivity.
Qed.

(** Once the direct attempt failed with a permission-denied signature on
    a platform other than Windows, the next command is [which sudo]. *)
Lemma execSudo_escalates args h error es0 :
  platform env <> "win32" ->
  spawnAsync pec env (hd_error args) (tl args) with_logger (h ++ executing_log args)%list
    = (inl error, es0) ->
  is_permission_denied error = true ->
  exists rest, spawns (snd (execSudo pec env args h)) = direct args :: which_sudo :: rest.
Proof.
  intros Hplat Hdirect Hdenied.
  assert (Hw : String.eqb (platform env) "win32" = false) by (now apply String.eqb_neq).
  pose proof (spawnAsync_spawns pec env (hd_error args) (tl args) with_logger
                (h ++ executing_log args)) as Hs0.
  rewrite Hdirect in Hs0. cbn [snd with_logger captureOutput] in Hs0.
  rewrite execSudo_eq, Hdirect, Hdenied, Hw. cbn [negb]. cbv zeta.
  match goal with |- context [checkCommand pec env "sudo" ?h1] =>
    destruct (checkCommand_total pec env "sudo" h1) as (b & es1 & Hcheck & Hs1) end.
  rewrite Hw in Hs1. rewrite Hcheck.
  destruct b;
    [ destruct (spawnAsync pec env (Some "sudo") ("-n" :: args) with_logger _)
        as [[sudoError|res] es2];
      [ destruct (negb (stdin_isTTY env) || requiresPassword (err_message sudoError));
        [ | destruct (spawnAsync pec env (Some "sudo") args with_logger_no_capture _)
              as [x3 es3] ]
      | ]
    | ];
    cbn [snd]; rewrite !spawns_app, Hs0, Hs1; eexists; reflexivity.
Qed.

(** X7. The permission test reads the whole failure message, which quotes
    the command line. On a platform other than Windows, a command that
    closes with a code other than 0 and whose command line contains
    "EACCES", "EPERM" or "Permission denied" starts the escalation,
    whatever it wrote on its standard error: the next command spawned is
    [which sudo]. *)
Theorem execSudo_command_line_signature args h chunks exit signature :
  platform env <> "win32" ->
  spawn env ((h ++ executing_log args)
             ++ spawning_log (hd_error args) (tl args) with_logger)%list
        (direct args) = Runs chunks (CloseEvent exit) ->
  exit <> Some 0%Z ->
  signature = "EACCES" \/ signature = "EPERM" \/ signature = "Permission denied" ->
  includes (show_opt (hd_error args) ++ " " ++ join " " (tl args)) signature = true ->
  exists rest, spawns (snd (execSudo pec env args h)) = direct args :: which_sudo :: rest.
Proof.
  intros Hplat Hspawn Hexit Hsig Hincl.
  set (message := ("Command failed: " ++ show_opt (hd_error args) ++ " " ++ join " " (tl args)
                   ++ nl ++ "Exit code: " ++ show_code exit
                   ++ nl ++ "Stderr: " ++ captured Stderr chunks)%string).
  assert (Hmsg : includes message signature = true).
  { unfold message. apply (includes_skip "Command failed: ").
    rewrite <- !string_app_assoc. do 6 apply includes_app_l.
    rewrite string_app_assoc. exact Hincl. }
  assert (Hden : is_permission_denied (ProcessError pec message) = true).
  { unfold is_permission_denied. cbn [err_message ProcessError].
    destruct Hsig as [Hs | [Hs | Hs]]; subst signature; rewrite Hmsg;
      rewrite ?orb_true_r; reflexivity. }
  assert (Hdirect : exists es0,
            spawnAsync pec env (hd_error args) (tl args) with_logger
              (h ++ executing_log args)%list
            = (inl (ProcessError pec message), es0)).
  { rewrite spawnAsync_eq. cbv zeta. unfold direct in Hspawn.
    cbn [with_logger captureOutput]. rewrite Hspawn.
    destruct exit as [[|p|p]|]; [now elim Hexit| | |]; eexists; reflexivity. }
  destruct Hdirect as [es0 Hdirect].
  exact (execSudo_escalates args h _ es0 Hplat Hdirect Hden).
Qed.

(** X8. Whatever happens, [execSudo] spawns the direct command first and
    at most three more: its commands are a prefix of direct, [which sudo],
    [sudo -n ...], [sudo ...]. On Windows the direct command is the only
    one. *)
Theorem execSudo_commands args h :
  let sp := spawns (snd (execSudo pec env args h)) in
  (exists rest, sp = direct args :: rest) /\
  is_prefix sp [direct args; which_sudo; sudo_noninteractive args; sudo_interactive args] /\
  (platform env = "win32" -> sp = [direct args]).
Proof.
  intros sp. subst sp.
  pose proof (spawnAsync_spawns pec env (hd_error args) (tl args) with_logger
                (h ++ executing_log args)) as Hs0.
  rewrite execSudo_eq.
  destruct (spawnAsync pec env (hd_error args) (tl args) with_logger _) as [[error|res] es0];
    cbn [snd with_logger captureOutput] in Hs0.
  2:{ cbn [snd]. rewrite spawns_app, Hs0.
      split; [eexists; reflexivity | split; [eexists; reflexivity | reflexivity]]. }
  destruct (is_permission_denied error).
  2:{ cbn [snd]. rewrite spawns_app, Hs0.
      split; [eexists; reflexivity | split; [eexists; reflexivity | reflexivity]]. }
  destruct (String.eqb (platform env) "win32") eqn:Hw; cbn [negb].
  { cbn [snd]. rewrite !spawns_app, Hs0.
    split; [eexists; reflexivity | split; [eexists; reflexivity | reflexivity]]. }
  cbv zeta.
  match goal with |- context [checkCommand pec env "sudo" ?h1] =>
    destruct (checkCommand_total pec env "sudo" h1) as (b & es1 & Hcheck & Hs1) end.
  rewrite Hw in Hs1. rewrite Hcheck.
  assert (Hnw : platform env = "win32" -> False).
  { intros H. rewrite H in Hw. discriminate Hw. }
  destruct b.
  - pose proof (spawnAsync_spawns pec env (Some "sudo") ("-n" :: args) with_logger) as Hs2.
    match goal with |- context [spawnAsync pec env (Some "sudo") ("-n" :: args) with_logger ?h2] =>
      specialize (Hs2 h2);
      destruct (spawnAsync pec env (Some "sudo") ("-n" :: args) with_logger h2)
        as [[sudoError|res] es2] end;
      cbn [snd with_logger captureOutput] in Hs2.
    + destruct (negb (stdin_isTTY env) || requiresPassword (err_message sudoError)).
      * cbn [snd]. rewrite !spawns_app, Hs0, Hs1, Hs2.
        split; [eexists; reflexivity | split; [eexists; reflexivity | intros H; now elim Hnw]].
      * pose proof (spawnAsync_spawns pec env (Some "sudo") args with_logger_no_capture) as Hs3.
        match goal with |- context [spawnAsync pec env (Some "sudo") args with_logger_no_capture ?h3] =>
          specialize (Hs3 h3);
          destruct (spawnAsync pec env (Some "sudo") args with_logger_no_capture h3)
            as [x3 es3] end.
        cbn [snd with_logger_no_capture captureOutput] in Hs3.
        cbn [snd]. rewrite !spawns_app, Hs0, Hs1, Hs2, Hs3.
        split; [eexists; reflexivity | split; [now exists [] | intros H; now elim Hnw]].
    + cbn [snd]. rewrite !spawns_app, Hs0, Hs1, Hs2.
      split; [eexists; reflexivity | split; [eexists; reflexivity | intros H; now elim Hnw]].
  - cbn [snd]. rewrite !spawns_app, Hs0, Hs1.
    split; [eexists; reflexivity | split; [eexists; reflexivity | intros H; now elim Hnw]].
Qed.

(** X9. The escalation recovers: when the non-interactive retry succeeds,
    [execSudo] returns the result of the retry and the permission error of
    the direct attempt is dropped. *)
Theorem execSudo_recovers args h error es0 es1 res es2 :
  platform env <> "win32" ->
  spawnAsync pec env (hd_error args) (tl args) with_logger (h ++ executing_log args)%list
    = (inl error, es0) ->
  is_permission_denied error = true ->
  let h1 := ((h ++ executing_log args ++ es0) ++ retrying_log)%list in
  checkCommand pec env "sudo" h1 = (inr true, es1) ->
  spawnAsync pec env (Some "sudo") ("-n" :: args) with_logger (h1 ++ es1)%list
    = (inr res, es2) ->
  fst (execSudo pec env args h) = inr res /\
  code res = Some 0%Z /\
  spawns (snd (execSudo pec env args h)) = [direct args; which_sudo; sudo_noninteractive args].
Proof.
  intros Hplat Hdirect Hdenied h1 Hcheck Hsudo.
  assert (Hw : String.eqb (platform env) "win32" = false) by (now apply String.eqb_neq).
  pose proof (spawnAsync_spawns pec env (hd_error args) (tl args) with_logger
                (h ++ executing_log args)) as Hs0.
  rewrite Hdirect in Hs0. cbn [snd with_logger captureOutput] in Hs0.
  destruct (checkCommand_total pec env "sudo" h1) as (b & es1' & Hcheck' & Hs1).
  rewrite Hcheck in Hcheck'. injection Hcheck' as <- <-. rewrite Hw in Hs1.
  pose proof (spawnAsync_spawns pec env (Some "sudo") ("-n" :: args) with_logger
                (h1 ++ es1)) as Hs2.
  rewrite Hsudo in Hs2. cbn [snd with_logger captureOutput] in Hs2.
  assert (Hcode : code res = Some 0%Z).
  { pose proof (spawnAsync_eq pec env (Some "sudo") ("-n" :: args) with_logger (h1 ++ es1)) as E.
    rewrite Hsudo in E. cbv zeta in E.
    destruct (spawn env _ _) as [e|chunks [msg|[[|p|p]|]]]; inversion E. reflexivity. }
  rewrite execSudo_eq, Hdirect, Hdenied, Hw. cbn [negb]. cbv zeta.
  fold h1. rewrite Hcheck, Hsudo. cbn [fst snd].
  repeat split; [exact Hcode|].
  rewrite !spawns_app, Hs0, Hs1, Hs2. reflexivity.
Qed.

End RunnerExtras.

(** ** The Windows executor *)
Section WindowsExtras.
Import JS Process Sshd Windows Obs Samples.

Variable pec : option string.
Variable env : Env.
Variable path_join : list string -> string.
Variable path_dirname : string -> string.
Variable ensureDir : string -> Proc unit.
Variable writeFile : string -> string -> Proc unit.

Lemma powershell_spawns cmd h : spawns (snd (powershell pec env cmd h)) = [ps cmd].
Proof. apply spawnAsync_spawns. Qed.

Lemma installSSH_eq config h :
  installSSH pec env config h =
  let l0 := [EvLog Debug "Checking OpenSSH Server installation status..."] in
  let wrap (e : JsError) :=
    ProcessError pec ("Failed to install OpenSSH Server: " ++ err_message e) in
  let '(x1, es1) := powershell pec env checkCmd (h ++ l0)%list in
  match x1 with
  | inl e => (inl (wrap e), l0 ++ es1)%list
  | inr checkResult =>
      if includes (output_of checkResult) "State        : Installed" then
        (inr tt, l0 ++ es1 ++ [EvLog Debug "OpenSSH Server already installed"])%list
      else
        let l1 := [EvLog Debug "Installing OpenSSH Server..."] in
        let '(x2, es2) := powershell pec env installCmd (((h ++ l0) ++ es1) ++ l1)%list in
        match x2 with
        | inl e => (inl (wrap e), l0 ++ es1 ++ l1 ++ es2)%list
        | inr _ =>
            (inr tt, l0 ++ es1 ++ l1 ++ es2
                     ++ [EvLog Debug "OpenSSH Server installed successfully"])%list
        end
  end.
Proof.
  unfold installSSH, try_catch, bind, log, emit, throw. cbv zeta.
  destruct (powershell pec env checkCmd _) as [[e|r] es1].
  - now rewrite ?app_nil_r.
  - destruct (includes (output_of r) "State        : Installed").
    + now rewrite <- ?app_assoc.
    + destruct (powershell pec env installCmd _) as [[e|r2] es2];
        now rewrite ?app_nil_r, <- ?app_assoc.
Qed.

(** X10. [installSSH] is a no-op on an installed host: when the capability
    query reports "State        : Installed" on either stream, it returns
    after that one command and never runs the installer. *)
Theorem installSSH_skips config h checkResult es1 :
  powershell pec env checkCmd
    (h ++ [EvLog Debug "Checking OpenSSH Server installation status..."])%list
    = (inr checkResult, es1) ->
  includes (output_of checkResult) "State        : Installed" = true ->
  fst (installSSH pec env config h) = inr tt /\
  spawns (snd (installSSH pec env config h)) = [ps checkCmd].
Proof.
  intros Hcheck Hinst.
  pose proof (powershell_spawns checkCmd
                (h ++ [EvLog Debug "Checking OpenSSH Server installation status..."])) as Hs.
  rewrite Hcheck in Hs. cbn [snd] in Hs.
  rewrite installSSH_eq. cbv zeta. rewrite Hcheck, Hinst. cbn [fst snd].
  split; [reflexivity|]. rewrite !spawns_app, Hs. reflexivity.
Qed.


Lemma startSSH_eq config h :
  startSSH pec env config h =
  let l1 := [EvLog Debug "Setting SSH service to automatic start..."] in
  let l2 := [EvLog Debug "Starting SSH service..."] in
  let l3 := [EvLog Debug "Verifying SSH service status..."] in
  let wrap (e : JsError) :=
    ProcessError pec ("Failed to start SSH service: " ++ err_message e) in
  let '(x1, es1) := powershell pec env setServiceCmd (h ++ l1)%list in
  match x1 with
  | inl e => (inl (wrap e), l1 ++ es1)%list
  | inr _ =>
      let '(x2, es2) := powershell pec env startServiceCmd (((h ++ l1) ++ es1) ++ l2)%list in
      match x2 with
      | inl e => (inl (wrap e), l1 ++ es1 ++ l2 ++ es2)%list
      | inr _ =>
          let '(x3, es3) :=
            powershell pec env getServiceCmd (((((h ++ l1) ++ es1) ++ l2) ++ es2) ++ l3)%list in
          match x3 with
          | inl e => (inl (wrap e), l1 ++ es1 ++ l2 ++ es2 ++ l3 ++ es3)%list
          | inr statusResult =>
              if negb (includes (output_of statusResult) "Running") then
                (inl (wrap (PlainError "SSH service failed to start")),
                 l1 ++ es1 ++ l2 ++ es2 ++ l3 ++ es3)%list
              else
                (inr tt, l1 ++ es1 ++ l2 ++ es2 ++ l3 ++ es3
                         ++ [EvLog Debug "SSH service is running"])%list
          end
      end
  end.
Proof.
  unfold startSSH, try_catch, bind, log, emit, throw. cbv zeta.
  destruct (powershell pec env setServiceCmd _) as [[e|r1] es1];
    [now rewrite ?app_nil_r|].
  destruct (powershell pec env startServiceCmd _) as [[e|r2] es2];
    [now rewrite ?app_nil_r, <- ?app_assoc|].
  destruct (powershell pec env getServiceCmd _) as [[e|r3] es3];
    [now rewrite ?app_nil_r, <- ?app_assoc|].
  destruct (negb (includes (output_of r3) "Running"));
    now rewrite ?app_nil_r, <- ?app_assoc.
Qed.


(** X13. [startSSH] checks the status once. When the three commands
    succeed and the output of the status query does not contain
    "Running", it throws the ProcessError "Failed to start SSH service:
    SSH service failed to start" without starting or querying again. *)
Theorem startSSH_not_running config h r1 es1 r2 es2 statusResult es3 :
  let l1 := [EvLog Debug "Setting SSH service to automatic start..."] in
  let l2 := [EvLog Debug "Starting SSH service..."] in
  let l3 := [EvLog Debug "Verifying SSH service status..."] in
  powershell pec env setServiceCmd (h ++ l1)%list = (inr r1, es1) ->
  powershell pec env startServiceCmd (((h ++ l1) ++ es1) ++ l2)%list = (inr r2, es2) ->
  powershell pec env getServiceCmd (((((h ++ l1) ++ es1) ++ l2) ++ es2) ++ l3)%list
    = (inr statusResult, es3) ->
  includes (output_of statusResult) "Running" = false ->
  fst (startSSH pec env config h)
    = inl (ProcessError pec "Failed to start SSH service: SSH service failed to start") /\
  spawns (snd (startSSH pec env config h))
    = [ps setServiceCmd; ps startServiceCmd; ps getServiceCmd].
Proof.
  intros l1 l2 l3 H1 H2 H3 Hrun.
  pose proof (powershell_spawns setServiceCmd (h ++ l1)) as Hs1.
  pose proof (powershell_spawns startServiceCmd (((h ++ l1) ++ es1) ++ l2)) as Hs2.
  pose proof (powershell_spawns getServiceCmd (((((h ++ l1) ++ es1) ++ l2) ++ es2) ++ l3)) as Hs3.
  rewrite H1 in Hs1. rewrite H2 in Hs2. rewrite H3 in Hs3. cbn [snd] in *.
  rewrite startSSH_eq. cbv zeta. fold l1 l2 l3. rewrite H1, H2, H3, Hrun. cbn [negb fst snd].
  split; [reflexivity|]. rewrite !spawns_app, Hs1, Hs2, Hs3. reflexivity.
Qed.

Lemma configureSSH_eq config h :
  configureSSH pec env path_join path_dirname ensureDir writeFile config h =
  let wrap (e : JsError) :=
    ProcessError pec ("Failed to configure SSH: " ++ err_message e) in
  let tempConfigPath := path_join [cwd config; ".runner-data"; "tmp"; "sshd_config_win"] in
  let l1 := [EvLog Debug ("Writing sshd_config to " ++ sshdConfigPath ++ "...")] in
  let l2 := [EvLog Debug ("Configuring firewall for port " ++ show_Z (port config) ++ "...")] in
  let '(x1, es1) := powershell pec env newItemCmd h in
  match x1 with
  | inl e => (inl (wrap e), es1)
  | inr _ =>
      match generateSSHDConfig config with
      | inl e => (inl (wrap e), es1)
      | inr sshdConfig =>
          let '(x2, es2) := ensureDir (path_dirname tempConfigPath) (h ++ es1)%list in
          match x2 with
          | inl e => (inl (wrap e), es1 ++ es2)%list
          | inr _ =>
              let '(x3, es3) := writeFile tempConfigPath sshdConfig ((h ++ es1) ++ es2)%list in
              match x3 with
              | inl e => (inl (wrap e), es1 ++ es2 ++ es3)%list
              | inr _ =>
                  let '(x4, es4) :=
                    powershell pec env (copyCmd tempConfigPath)
                      ((((h ++ es1) ++ es2) ++ es3) ++ l1)%list in
                  match x4 with
                  | inl e => (inl (wrap e), es1 ++ es2 ++ es3 ++ l1 ++ es4)%list
                  | inr _ =>
                      let '(x5, es5) :=
                        powershell pec env (firewallCmd config)
                          ((((((h ++ es1) ++ es2) ++ es3) ++ l1) ++ es4) ++ l2)%list in
                      match x5 with
                      | inl e =>
                          (inl (wrap e), es1 ++ es2 ++ es3 ++ l1 ++ es4 ++ l2 ++ es5)%list
                      | inr _ =>
                          (inr tt, es1 ++ es2 ++ es3 ++ l1 ++ es4 ++ l2 ++ es5
                                   ++ [EvLog Debug "SSH configuration applied successfully"])%list
                      end
                  end
              end
          end
      end
  end.
Proof.
  unfold configureSSH, of_sum, try_catch, bind, log, emit, throw, ret. cbv zeta.
  destruct (powershell pec env newItemCmd h) as [[e|r1] es1]; [now rewrite ?app_nil_r|].
  destruct (generateSSHDConfig config) as [e|doc]; [now rewrite ?app_nil_r|].
  rewrite ?app_nil_r.
  destruct (ensureDir _ _) as [[e|[]] es2]; [now rewrite ?app_nil_r, <- ?app_assoc|].
  destruct (writeFile _ _ _) as [[e|[]] es3]; [now rewrite ?app_nil_r, <- ?app_assoc|].
  destruct (powershell pec env (copyCmd _) _) as [[e|r4] es4];
    [now rewrite ?app_nil_r, <- ?app_assoc|].
  destruct (powershell pec env (firewallCmd config) _) as [[e|r5] es5];
    now rewrite ?app_nil_r, <- ?app_assoc.
Qed.

(** X14. When [allowUsers] is not a string, [configureSSH] fails after it
    created the configuration directory and before it touches any file:
    the run is the [New-Item] command alone, neither [ensureDir] nor
    [writeFile] is reached, and the error is the ProcessError "Failed to
    configure SSH: " followed by the message of the TypeError. *)
Theorem configureSSH_bad_allowUsers config h r1 es1 :
  powershell pec env newItemCmd h = (inr r1, es1) ->
  (forall s, allowUsers config <> JString s) ->
  exists typeError,
    generateSSHDConfig config = inl typeError /\
    err_name typeError = "TypeError" /\
    configureSSH pec env path_join path_dirname ensureDir writeFile config h
      = (inl (ProcessError pec ("Failed to configure SSH: " ++ err_message typeError)), es1) /\
    spawns es1 = [ps newItemCmd].
Proof.
  intros Hnew Hbad.
  pose proof (powershell_spawns newItemCmd h) as Hs. rewrite Hnew in Hs. cbn [snd] in Hs.
  rewrite configureSSH_eq. cbv zeta. rewrite Hnew.
  unfold generateSSHDConfig.
  destruct (allowUsers config) as [|s|l] eqn:Ha; cbn [allowUsers_split].
  - eexists. repeat split; try reflexivity; exact Hs.
  - now elim (Hbad s).
  - eexists. repeat split; try reflexivity; exact Hs.
Qed.


End WindowsExtras.

(** ** The orchestrator *)
Section OrchestratorExtras.
Import JS Process Sshd Execute Obs Samples.

Variables (pec : option string) (env : Env) (lin win : Executor).
Variable keys : Config -> Proc unit.


Lemma finished_inr b out before v :
  tracked b [] out ->
  fst (fst (finished pec out before)) = inr v ->
  v = set_success (result_after (expected_stages b)) /\
  snd (fst (finished pec out before)) = v /\
  returned (snd out) = expected_stages b /\
  called (snd out) = expected_stages b /\
  snd (finished pec out before) = (before ++ snd out)%list.
Proof.
  destruct out as [[[e|[]] r] es]; unfold tracked, finished, failed; cbn [fst snd app];
    [discriminate|].
  intros (_ & Hres & Hcall & _ & Hret & Hpend) Hv. inversion Hv; subst v.
  rewrite Hpend in Hcall. cbn [opt_list] in Hcall. rewrite app_nil_r in Hcall.
  rewrite Hcall, Hret, Hres, Hret. auto.
Qed.

(** X16. On a Linux or Windows plan, when [execute] returns, every stage
    of the plan has run: the result has [configured], [keysSetup] and
    [serviceStarted] true, [installed] equal to [plan.needsInstall], the
    complete steps list and [success] true, and the stage functions called
    are exactly those of a complete run, in order. *)
Theorem execute_complete plan config h v :
  os plan = "linux" \/ os plan = "windows" ->
  fst (fst (execute pec env lin win keys plan config h)) = inr v ->
  v = mkExecutionResult (needsInstall plan) true true true
        (expected_steps (needsInstall plan)) (Some true) /\
  called (snd (execute pec env lin win keys plan config h))
    = expected_stages (needsInstall plan).
Proof.
  intros Hos. rewrite execute_eq. cbv zeta.
  assert (Hv : set_success (result_after (expected_stages (needsInstall plan)))
               = mkExecutionResult (needsInstall plan) true true true
                   (expected_steps (needsInstall plan)) (Some true))
    by (now destruct (needsInstall plan)).
  destruct (String.eqb (os plan) "linux") eqn:Hl.
  - destruct (hasSudoAccess pec env _) as [[e|[|]] es_s]; try discriminate.
    intros H.
    destruct (finished_inr _ _ _ _ (run_stages_tracked keys lin plan config _) H)
      as (-> & _ & _ & Hc & ->).
    split; [exact Hv|].
    now rewrite !called_app, !called_lifted, Hc.
  - destruct (String.eqb (os plan) "windows") eqn:Hw.
    + intros H.
      destruct (finished_inr _ _ _ _ (run_stages_tracked keys win plan config _) H)
        as (-> & _ & _ & Hc & ->).
      split; [exact Hv|].
      now rewrite !called_app, !called_lifted, Hc.
    + destruct Hos as [Hos|Hos]; rewrite Hos in *; discriminate.
Qed.


(** X18. A plan with [needsInstall] false skips the install stage
    entirely: [installSSH] is never called and the [installed] flag stays
    false, in the result returned as well as in the object left behind by
    a failure. *)
Theorem execute_skips_install plan config h :
  needsInstall plan = false ->
  ~ In Install (called (snd (execute pec env lin win keys plan config h))) /\
  installed (snd (fst (execute pec env lin win keys plan config h))) = false.
Proof.
  intros Hn.
  pose proof (execute_well_run pec env lin win keys plan config h) as Hwr.
  unfold well_run in Hwr. cbv zeta in Hwr. rewrite Hn in Hwr.
  destruct Hwr as (_ & Hcall & [k Hk] & Hend).
  assert (Hnot : ~ In Install (called (snd (execute pec env lin win keys plan config h)))).
  { intros Hin.
    assert (Hin' : In Install (expected_stages false))
      by (rewrite Hk; apply in_or_app; now left).
    simpl in Hin'. destruct Hin' as [H|[H|[H|[]]]]; discriminate H. }
  split; [exact Hnot|].
  assert (Hflag : forall d, ~ In Install d -> installed (result_after d) = false).
  { intros d Hd. destruct (installed (result_after d)) eqn:E; [|reflexivity].
    exfalso. apply Hd.
    pose proof (flags_agree_after d) as (Hi & _). apply Hi in E.
    rewrite steps_result_after in E. apply in_map_iff in E.
    destruct E as (s & Hs & Hin). destruct s; try discriminate Hs. exact Hin. }
  assert (Hret : ~ In Install (returned (snd (execute pec env lin win keys plan config h)))).
  { intros Hin. apply Hnot. rewrite Hcall. apply in_or_app. now left. }
  destruct (fst (fst (execute pec env lin win keys plan config h))) as [e|v].
  - destruct Hend as [-> _]. now apply Hflag.
  - destruct Hend as (_ & -> & _). now apply Hflag.
Qed.

(** X19. [execute] calls the stage functions in the order install,
    configure, keys, start, without gap from the first one the plan asks
    for, and none twice; at the end of the run at most one of them is
    still running (the one that failed), and it is the last one called. *)
Theorem execute_stage_order plan config h :
  let es := snd (execute pec env lin win keys plan config h) in
  is_prefix (called es) (expected_stages (needsInstall plan)) /\
  NoDup (called es) /\
  called es = (returned es ++ opt_list (pending es))%list.
Proof.
  intros es.
  pose proof (execute_well_run pec env lin win keys plan config h) as Hwr.
  unfold well_run in Hwr. cbv zeta in Hwr. fold es in Hwr.
  destruct Hwr as (_ & Hcall & Hpre & _).
  split; [exact Hpre|]. split; [|exact Hcall].
  destruct Hpre as [k Hk]. pose proof (expected_stages_NoDup (needsInstall plan)) as Hnd.
  rewrite Hk in Hnd. exact (NoDup_app_remove_r _ _ Hnd).
Qed.

Lemma spawn_free_assoc {A B C} (m : Orch A) (f : A -> Orch B) (g : B -> Orch C) r h :
  spawn_free (obind m (fun a => obind (f a) g) r h) ->
  spawn_free (obind (obind m f) g r h).
Proof. now rewrite obind_assoc. Qed.

Lemma spawn_free_ret {A B} (a : A) (f : A -> Orch B) r h :
  (forall h', spawn_free (f a r h')) -> spawn_free (obind (oret a) f r h).
Proof.
  intros H. unfold obind, oret. specialize (H (h ++ externals [])%list).
  now destruct (f a r _) as [[y r2] es2].
Qed.

Lemma spawn_free_modify {B} (g : ExecutionResult -> ExecutionResult) (f : unit -> Orch B) r h :
  (forall r' h', spawn_free (f tt r' h')) -> spawn_free (obind (modify g) f r h).
Proof.
  intros H. unfold obind, modify. specialize (H (g r) (h ++ externals [])%list).
  now destruct (f tt (g r) _) as [[y r2] es2].
Qed.

Lemma spawn_free_info {B} (msg : string) (f : unit -> Orch B) r h :
  (forall r' h', spawn_free (f tt r' h')) -> spawn_free (obind (info msg) f r h).
Proof.
  intros H. unfold obind, info, lift, log, emit.
  specialize (H r (h ++ externals (lifted r [EvLog Info msg]))%list).
  destruct (f tt r _) as [[y r2] es2]. exact H.
Qed.

Lemma spawn_free_info_last (msg : string) r h : spawn_free (info msg r h).
Proof. reflexivity. Qed.

Lemma spawn_free_await {B} (s : Stage) (p : Proc unit) (f : unit -> Orch B) r h :
  (forall h', spawns (snd (p h')) = []) ->
  (forall r' h', spawn_free (f tt r' h')) ->
  spawn_free (obind (await_stage s p) f r h).
Proof.
  intros Hp H. unfold await_stage, obind, mark, lift. cbn [externals app].
  match goal with |- context [p ?h'] => specialize (Hp h') end.
  destruct (p _) as [[e|[]] es]; cbn [snd] in Hp.
  - unfold spawn_free. cbn [snd app externals]. rewrite ?app_nil_r, externals_lifted. exact Hp.
  - match goal with |- context [f tt r ?h'] => specialize (H r h') end.
    destruct (f tt r _) as [[y r2] es2]. unfold spawn_free in *. cbn [snd] in *.
    cbn [app externals]. rewrite !externals_app, externals_lifted, !spawns_app, Hp.
    exact H.
Qed.

Ltac quietly Hi Hc Hk Hs :=
  repeat first
    [ apply spawn_free_info; intros ? ?
    | apply spawn_free_await; [first [apply Hi | apply Hc | apply Hk | apply Hs] | intros ? ?]
    | apply spawn_free_modify; intros ? ?
    | apply spawn_free_ret; intros ?
    | apply spawn_free_info_last
    | apply spawn_free_assoc ].

Lemma run_stages_spawn_free executor plan config r h :
  quiet (installSSH executor) -> quiet (configureSSH executor) ->
  quiet keys -> quiet (startSSH executor) ->
  spawn_free (run_stages keys executor plan config r h).
Proof.
  intros Hi Hc Hk Hs. unfold quiet in *.
  unfold run_stages. destruct (needsInstall plan); quietly Hi Hc Hk Hs.
Qed.

(** X20. [execute] spawns no command of its own. When the stage functions
    spawn nothing, the only commands of a run are those of the elevation
    query on a Linux plan, and there are none on any other plan. *)
Theorem execute_spawns_nothing plan config h :
  quiet (installSSH lin) -> quiet (configureSSH lin) -> quiet (startSSH lin) ->
  quiet (installSSH win) -> quiet (configureSSH win) -> quiet (startSSH win) ->
  quiet keys ->
  spawns (externals (snd (execute pec env lin win keys plan config h))) =
    if String.eqb (os plan) "linux"
    then spawns (snd (hasSudoAccess pec env (h ++ opening_log plan)%list))
    else [].
Proof.
  intros Hil Hcl Hsl Hiw Hcw Hsw Hk.
  rewrite execute_eq. cbv zeta.
  assert (Hfin : forall executor h' evs,
            quiet (installSSH executor) -> quiet (configureSSH executor) ->
            quiet (startSSH executor) ->
            spawns (externals
              (snd (finished pec (run_stages keys executor plan config fresh_result h')
                      (lifted fresh_result evs)))) = spawns evs).
  { intros executor h' evs Hi Hc Hs.
    pose proof (run_stages_spawn_free executor plan config fresh_result h' Hi Hc Hk Hs) as Hq.
    unfold spawn_free in Hq.
    destruct (run_stages keys executor plan config fresh_result h') as [[[e|[]] r] es];
      unfold finished, failed; cbn [snd] in *;
      rewrite !externals_app, !externals_lifted, !spawns_app, Hq; cbn [spawns];
      now rewrite ?app_nil_r. }
  destruct (String.eqb (os plan) "linux").
  - destruct (hasSudoAccess pec env _) as [[e|[|]] es_s]; rewrite <- lifted_app; cbn [snd].
    + unfold failed. cbn [snd].
      rewrite !externals_app, !externals_lifted, !spawns_app. cbn [spawns].
      now rewrite !app_nil_r.
    + rewrite Hfin by assumption. rewrite spawns_app. reflexivity.
    + unfold failed. cbn [snd].
      rewrite !externals_app, !externals_lifted, !spawns_app. cbn [spawns].
      now rewrite !app_nil_r.
  - destruct (String.eqb (os plan) "windows").
    + rewrite Hfin by assumption. reflexivity.
    + cbn [snd]. now rewrite externals_lifted.
Qed.

End OrchestratorExtras.

(** ** The orchestrator over the Windows executor *)
Section WindowsRunExtras.
Import JS Process Sshd Execute Windows Obs Samples.

Variables (pec : option string) (env : Env) (lin : Executor).
Variable keys : Config -> Proc unit.
Variable path_join : list string -> string.
Variable path_dirname : string -> string.
Variable ensureDir : string -> Proc unit.
Variable writeFile : string -> string -> Proc unit.

Lemma configureSSH_unrenderable config typeError h :
  (forall h', exists r es, powershell pec env newItemCmd h' = (inr r, es)) ->
  generateSSHDConfig config = inl typeError ->
  exists es1,
    Windows.configureSSH pec env path_join path_dirname ensureDir writeFile config h
      = (inl (ProcessError pec ("Failed to configure SSH: " ++ err_message typeError)), es1) /\
    spawns es1 = [ps newItemCmd].
Proof.
  intros Hnew Hgen. destruct (Hnew h) as (r & es1 & H1).
  pose proof (powershell_spawns pec env newItemCmd h) as Hs. rewrite H1 in Hs.
  exists es1. rewrite configureSSH_eq. cbv zeta. rewrite H1, Hgen. now split.
Qed.

(** X21. End to end: on a Windows plan that needs no install, a Config
    that the renderer rejects (an [allowUsers] that is not a string) makes
    [execute] fail in the configure stage. The only command of the run is
    the [New-Item] of the configuration directory, the [result] object is
    untouched, and the error reads "Execution failed: Failed to configure
    SSH: " followed by the message of the renderer's error. *)
Theorem execute_windows_unrenderable plan config h typeError :
  os plan = "windows" ->
  needsInstall plan = false ->
  generateSSHDConfig config = inl typeError ->
  (forall h', exists r es, powershell pec env newItemCmd h' = (inr r, es)) ->
  let out :=
    execute pec env lin
      (windowsExecutor pec env path_join path_dirname ensureDir writeFile)
      keys plan config h in
  fst (fst out)
    = inl (ProcessError pec
             ("Execution failed: Failed to configure SSH: " ++ err_message typeError)) /\
  snd (fst out) = fresh_result /\
  pending (snd out) = Some Configure /\
  spawns (externals (snd out)) = [ps newItemCmd].
Proof.
  intros Hos Hn Hgen Hnew out.
  set (message := ("Failed to configure SSH: " ++ err_message typeError)%string).
  assert (E : exists es1,
             spawns es1 = [ps newItemCmd] /\
             out = (inl (ProcessError pec ("Execution failed: " ++ message)), fresh_result,
                    (lifted fresh_result (opening_log plan)
                     ++ lifted fresh_result [EvLog Info "⚙️  Configuring SSH Server..."]
                     ++ (Call Configure, fresh_result) :: lifted fresh_result es1
                     ++ lifted fresh_result [EvLog Error ("Execution failed: " ++ message)])%list)).
  { subst out. rewrite execute_eq, Hos. cbv zeta.
    change (String.eqb "windows" "linux") with false.
    change (String.eqb "windows" "windows") with true. cbv iota.
    unfold run_stages. rewrite Hn.
    unfold obind at 1. unfold oret at 1.
    unfold obind at 1. unfold info at 1. unfold lift at 1. unfold log at 1. unfold emit at 1.
    unfold obind at 1. unfold await_stage at 1.
    unfold obind at 1. unfold mark at 1.
    unfold obind at 1. unfold lift at 1.
    cbn [Execute.configureSSH windowsExecutor].
    match goal with |- context [Windows.configureSSH _ _ _ _ _ _ config ?h'] =>
      destruct (configureSSH_unrenderable config typeError h' Hnew Hgen) as (es1 & Hc & Hs)
    end.
    rewrite Hc. exists es1. split; [exact Hs|].
    unfold finished, failed. cbn [err_message ProcessError app].
    fold message. now rewrite <- ?app_assoc. }
  destruct E as (es1 & Hs & ->). unfold pending. cbn [fst snd].
  repeat split.
  - rewrite !pending_from_app, !pending_from_lifted. cbn [pending_from].
    now rewrite !pending_from_app, !pending_from_lifted.
  - rewrite !externals_app, !externals_lifted. cbn [externals].
    rewrite !externals_app, !externals_lifted, !spawns_app, Hs. reflexivity.
Qed.

End WindowsRunExtras.

(** ** The renderer *)
Section RendererExtras.
Import JS Sshd Obs Samples.

Lemma split_nonempty sep s : split sep s <> [].
Proof.
  destruct s as [|c s]; simpl; [discriminate|].
  destruct (Ascii.eqb c sep); [discriminate|].
  destruct (split sep s); discriminate.
Qed.

(** No field of a split holds the separator. *)
Lemma split_fields sep s : Forall (fun u => has_char sep u = false) (split sep s).
Proof.
  induction s as [|c s IH]; simpl; [repeat constructor|].
  destruct (Ascii.eqb c sep) eqn:Hc; [constructor; [reflexivity | exact IH]|].
  destruct (split sep s) as [|x xs]; [repeat constructor; simpl; now rewrite Hc|].
  inversion IH; subst. constructor; [|assumption]. simpl. now rewrite Hc.
Qed.

Lemma split_no_sep sep u : has_char sep u = false -> split sep u = [u].
Proof.
  induction u as [|c u IH]; simpl; [reflexivity|].
  intros H. apply orb_false_iff in H. destruct H as [Hc Hu].
  rewrite Hc, (IH Hu). reflexivity.
Qed.

Lemma split_app_sep sep u rest :
  has_char sep u = false ->
  split sep (u ++ String sep rest) = u :: split sep rest.
Proof.
  induction u as [|c u IH]; simpl; intros H.
  - now rewrite Ascii.eqb_refl.
  - apply orb_false_iff in H. destruct H as [Hc Hu].
    rewrite Hc, (IH Hu). reflexivity.
Qed.

(** Joining fields that hold no space and splitting again gives the
    fields back. *)
Lemma split_join (l : list string) :
  l <> [] -> Forall (fun u => has_char " " u = false) l -> split " " (join " " l) = l.
Proof.
  induction l as [|u l IH]; [intros H; now elim H|].
  intros _ Hall. inversion Hall as [|? ? Hu Hl]; subst.
  destruct l as [|v l].
  - simpl. now apply split_no_sep.
  - change (join " " (u :: v :: l)) with (u ++ String " " (join " " (v :: l))).
    rewrite split_app_sep by exact Hu.
    rewrite IH; [reflexivity | discriminate | exact Hl].
Qed.

Lemma filter_all {A} (f : A -> bool) (l : list A) :
  Forall (fun a => f a = true) l -> filter f l = l.
Proof.
  induction 1 as [|a l Ha Hl IH]; simpl; [reflexivity|]. now rewrite Ha, IH.
Qed.

Lemma users_of_fields s :
  Forall (fun u => has_char " " u = false /\ truthy (trim u) = true) (users_of s).
Proof.
  unfold users_of. apply Forall_forall. intros u Hu. apply filter_In in Hu.
  destruct Hu as [Hin Ht]. split; [|exact Ht].
  pose proof (split_fields " " s) as Hf. rewrite Forall_forall in Hf. now apply Hf.
Qed.

(** X22. The user list is a fixed point of the renderer: every user it
    keeps is without space and not blank, and the rendered list, given back
    as [allowUsers], is read as the same users and renders the same
    document. *)
Theorem generateSSHDConfig_users_round_trip config s :
  allowUsers config = JString s ->
  Forall (fun u => has_char " " u = false /\ is_blank u = false) (users_of s) /\
  users_of (join " " (users_of s)) = users_of s /\
  generateSSHDConfig (with_allowUsers config (JString (join " " (users_of s))))
    = generateSSHDConfig config.
Proof.
  intros Ha.
  pose proof (users_of_fields s) as Hf.
  assert (Hround : users_of (join " " (users_of s)) = users_of s).
  { destruct (users_of s) as [|u l] eqn:E; [reflexivity|].
    unfold users_of at 1. rewrite split_join.
    - apply filter_all. eapply Forall_impl; [|exact Hf]. now intros a [_ H].
    - discriminate.
    - eapply Forall_impl; [|exact Hf]. now intros a [H _]. }
  split; [|split; [exact Hround|]].
  - eapply Forall_impl; [|exact Hf]. intros a [H1 H2]. split; [exact H1|].
    rewrite trim_truthy in H2. now destruct (is_blank a).
  - unfold generateSSHDConfig, with_allowUsers. rewrite Ha. cbn [allowUsers allowUsers_split].
    fold (users_of (join " " (users_of s))). fold (users_of s). rewrite Hround.
    reflexivity.
Qed.

Lemma blank_fields s : is_blank s = true -> Forall (fun u => is_blank u = true) (split " " s).
Proof.
  induction s as [|c s IH]; simpl; [repeat constructor|].
  intros H. apply andb_true_iff in H. destruct H as [Hc Hs]. specialize (IH Hs).
  destruct (Ascii.eqb c " "); [constructor; [reflexivity | exact IH]|].
  destruct (split " " s) as [|x xs]; [repeat constructor; simpl; now rewrite Hc|].
  inversion IH; subst. constructor; [|assumption]. simpl. now rewrite Hc.
Qed.

(** X23. An [allowUsers] string that is empty or white space only renders
    no user at all: the document is the template over the empty list and
    its [AllowUsers] line is the keyword followed by one space. *)
Theorem generateSSHDConfig_no_users config s :
  allowUsers config = JString s ->
  is_blank s = true ->
  users_of s = [] /\
  generateSSHDConfig config = inr (unlines (document_lines config [])) /\
  nth 16 (document_lines config []) "" = "AllowUsers ".
Proof.
  intros Ha Hb.
  assert (Hu : users_of s = []).
  { unfold users_of. pose proof (blank_fields s Hb) as Hf.
    induction Hf as [|u l Hu Hl IH]; [reflexivity|].
    simpl. rewrite trim_truthy, Hu. exact IH. }
  split; [exact Hu|]. split; [|reflexivity].
  unfold generateSSHDConfig. rewrite Ha. cbn [allowUsers_split].
  fold (users_of s). now rewrite Hu.
Qed.







End RendererExtras.

(** ** The logger *)
Section LoggerExtras.
Import JS LoggerUtil.

Variable maskSensitive : string -> string.
Variable stringify : Data -> string.
Variable getVNTimestamp : list LogEvent -> string.



Lemma primitive_unchanged d : is_object d = false -> _maskData maskSensitive d = d.
Proof. destruct d; simpl; intros H; (reflexivity || discriminate H). Qed.



Lemma console_of_app a b : console_of (a ++ b) = (console_of a ++ console_of b)%list.
Proof. induction a as [|[st t|p t] a IH]; simpl; now rewrite ?IH. Qed.

Lemma appends_of_app a b : appends_of (a ++ b) = (appends_of a ++ appends_of b)%list.
Proof. induction a as [|[st t|p t] a IH]; simpl; now rewrite ?IH. Qed.

Lemma then_log_console this printed level message data h :
  console_of (then_log maskSensitive stringify getVNTimestamp this printed level message data h)
  = console_of printed.
Proof.
  unfold then_log, _log, _writeToFile. rewrite console_of_app. simpl. apply app_nil_r.
Qed.

Lemma then_log_appends this printed level message data h :
  appends_of (then_log maskSensitive stringify getVNTimestamp this printed level message data h)
  = (appends_of printed
     ++ [(logFilePath this,
          (_formatMessage maskSensitive stringify getVNTimestamp level message data
             (h ++ printed)%list ++ nl)%string)])%list.
Proof. unfold then_log, _log, _writeToFile. now rewrite appends_of_app. Qed.

(** X27. [quiet] and [verbose] only gate the console. Each of [info],
    [warn], [error], [debug] and [success] appends exactly one record to
    the log file of the logger, whatever the two switches say. On a quiet
    logger [info], [warn], [debug] and [success] print nothing; [debug]
    prints nothing either unless [verbose] is set; [error] always prints
    its message on the error stream first. *)
Theorem logger_switches this message data h :
  let call method := method maskSensitive stringify getVNTimestamp this message data h in
  Forall (fun es => exists text, appends_of es = [(logFilePath this, text)])
    [call info; call warn; call error; call debug; call success] /\
  (quiet this = true ->
     Forall (fun es => console_of es = [])
       [call info; call warn; call debug; call success]) /\
  (verbose this = false -> console_of (call debug) = []) /\
  (exists rest, console_of (call error) = (ConsoleError, "❌ " ++ message) :: rest).
Proof.
  cbv zeta. unfold info, warn, error, debug, success. split; [|split; [|split]].
  - assert (Hone : forall printed level,
              appends_of printed = [] ->
              exists text,
                appends_of (then_log maskSensitive stringify getVNTimestamp this printed
                              level message data h) = [(logFilePath this, text)]).
    { intros printed level Hp. rewrite then_log_appends, Hp. eexists. reflexivity. }
    repeat (apply Forall_cons;
            [apply Hone;
             repeat match goal with |- context [if ?b then _ else _] => destruct b end;
             reflexivity|]).
    apply Forall_nil.
  - intros Hq. rewrite Hq, andb_false_r. cbn [negb].
    repeat (apply Forall_cons; [now rewrite then_log_console|]). apply Forall_nil.
  - intros Hv. rewrite Hv. cbn [andb]. now rewrite then_log_console.
  - rewrite then_log_console. eexists. reflexivity.
Qed.

(** X28. Data that is falsy is not logged at all: with [undefined],
    [null], [false], [0] or the empty string as [data], each of the five
    methods prints and writes exactly what it does without data, so the
    record in the file is the line "[<timestamp>] [<LEVEL>] <message>"
    alone. *)
Theorem logger_falsy_data this message data h :
  data_truthy data = false ->
  let call method d := method maskSensitive stringify getVNTimestamp this message d h in
  call info data = call info DNull /\
  call warn data = call warn DNull /\
  call error data = call error DNull /\
  call debug data = call debug DNull /\
  call success data = call success DNull /\
  appends_of (call error data)
    = [(logFilePath this,
        "[" ++ getVNTimestamp (h ++ [Console ConsoleError ("❌ " ++ message)])%list
        ++ "] [ERROR] " ++ message ++ nl)].
Proof.
  intros Hd. cbv zeta.
  unfold info, warn, error, debug, success, then_log, _log, _writeToFile, _formatMessage.
  rewrite Hd. cbn [data_truthy]. repeat split.
  cbn [app appends_of]. now rewrite !string_app_assoc.
Qed.

End LoggerExtras.

(** ** The further properties at concrete inputs *)
Section ExtraScenarios.
Import JS Process Sshd Execute Windows Obs Samples.

Lemma spawnAsync_without_capture_witness :
  logged Warn (snd (spawnAsync None (plain_host 0 "warning") (Some "sudo") ["ls"]
                      with_logger_no_capture [])) = [].
Proof.
  exact (proj2 (proj2 (spawnAsync_without_capture None (plain_host 0 "warning")
                         (Some "sudo") ["ls"] with_logger_no_capture [] eq_refl))).
Defined.

Lemma hasSudoAccess_without_probe_witness :
  hasSudoAccess None (root_host false) [] = (inr true, []) /\
  hasSudoAccess None windows_host [] = (inr false, []).
Proof.
  split.
  - exact (hasSudoAccess_without_probe None (root_host false) [] (or_intror eq_refl)).
  - exact (hasSudoAccess_without_probe None windows_host [] (or_introl eq_refl)).
Defined.

Lemma execSudo_other_failure_witness :
  spawns (snd (execSudo None (plain_host 2 "fatal") ["ls"; "-l"] [])) = [direct ["ls"; "-l"]].
Proof.
  exact (proj2 (execSudo_other_failure None (plain_host 2 "fatal") ["ls"; "-l"] [] _ _
                  eq_refl eq_refl)).
Defined.

Lemma execSudo_command_line_signature_witness :
  exists rest,
    spawns (snd (execSudo None (plain_host 1 "No such file or directory")
                   ["cat"; "EPERM.txt"] []))
    = direct ["cat"; "EPERM.txt"] :: which_sudo :: rest.
Proof.
  exact (execSudo_command_line_signature None (plain_host 1 "No such file or directory")
           ["cat"; "EPERM.txt"] [] _ _ "EPERM"
           ltac:(discriminate) eq_refl ltac:(discriminate) (or_intror (or_introl eq_refl))
           eq_refl).
Defined.

Lemma execSudo_recovers_witness :
  exists res,
    fst (execSudo None sudoers_host ["mkdir"; "/etc/ssh"] []) = inr res /\
    stdout res = "done" ++ nl.
Proof.
  eexists. split.
  - exact (proj1 (execSudo_recovers None sudoers_host ["mkdir"; "/etc/ssh"] [] _ _ _ _ _
                    ltac:(discriminate) eq_refl eq_refl eq_refl eq_refl)).
  - reflexivity.
Defined.

Lemma installSSH_skips_witness :
  spawns (snd (installSSH None (powershell_host "State        : Installed") sample_config []))
    = [ps checkCmd].
Proof.
  exact (proj2 (installSSH_skips None (powershell_host "State        : Installed")
                  sample_config [] _ _ eq_refl eq_refl)).
Defined.


Lemma startSSH_not_running_witness :
  fst (startSSH None (powershell_host "Stopped") sample_config [])
    = inl (ProcessError None "Failed to start SSH service: SSH service failed to start").
Proof.
  exact (proj1 (startSSH_not_running None (powershell_host "Stopped") sample_config []
                  _ _ _ _ _ _ eq_refl eq_refl eq_refl eq_refl)).
Defined.

Lemma configureSSH_bad_allowUsers_witness :
  exists typeError,
    configureSSH None (powershell_host "ok") slash_join same_directory dir_made file_written
      sequence_config []
    = (inl (ProcessError None ("Failed to configure SSH: " ++ err_message typeError)),
       snd (powershell None (powershell_host "ok") newItemCmd [])).
Proof.
  destruct (configureSSH_bad_allowUsers None (powershell_host "ok") slash_join same_directory
              dir_made file_written sequence_config [] _ _ eq_refl
              ltac:(intros s; discriminate)) as (typeError & _ & _ & H & _).
  exists typeError. exact H.
Defined.


Lemma execute_complete_witness :
  called (snd (sample_run (root_host false) (mkPlan "linux" true ["install"; "configure"; "start"])))
    = [Install; Configure; KeysSetup; StartService].
Proof.
  exact (proj2 (execute_complete None (root_host false)
                  (sample_linux None (root_host false)) (sample_windows None (root_host false))
                  (sample_keys None (root_host false))
                  (mkPlan "linux" true ["install"; "configure"; "start"]) sample_config [] _
                  (or_introl eq_refl) eq_refl)).
Defined.


Lemma execute_skips_install_witness :
  installed (snd (fst (sample_run (root_host false) (mkPlan "linux" false ["configure"; "start"]))))
    = false.
Proof.
  exact (proj2 (execute_skips_install None (root_host false)
                  (sample_linux None (root_host false)) (sample_windows None (root_host false))
                  (sample_keys None (root_host false))
                  (mkPlan "linux" false ["configure"; "start"]) sample_config [] eq_refl)).
Defined.

Lemma execute_spawns_nothing_witness :
  spawns (externals (snd (execute None unprivileged_host silent_executor silent_executor
                            silent_stage (mkPlan "windows" true []) sample_config []))) = [].
Proof.
  exact (execute_spawns_nothing None unprivileged_host silent_executor silent_executor
           silent_stage (mkPlan "windows" true []) sample_config []
           (fun _ _ => eq_refl) (fun _ _ => eq_refl) (fun _ _ => eq_refl)
           (fun _ _ => eq_refl) (fun _ _ => eq_refl) (fun _ _ => eq_refl)
           (fun _ _ => eq_refl)).
Defined.

Lemma execute_windows_unrenderable_witness :
  steps (snd (fst (execute None (powershell_host "ok") silent_executor
                     (windowsExecutor None (powershell_host "ok") slash_join same_directory
                        dir_made file_written)
                     silent_stage (mkPlan "windows" false ["configure"; "start"])
                     sequence_config []))) = [].
Proof.
  pose proof (execute_windows_unrenderable None (powershell_host "ok") silent_executor
                silent_stage slash_join same_directory dir_made file_written
                (mkPlan "windows" false ["configure"; "start"]) sequence_config [] _
                eq_refl eq_refl eq_refl) as H.
  assert (Hnew : forall h' : list Event,
             exists r es, powershell None (powershell_host "ok") newItemCmd h' = (inr r, es)).
  { intros h'. unfold powershell. rewrite spawnAsync_eq. cbn. eauto. }
  destruct (H Hnew) as (_ & -> & _). reflexivity.
Defined.

Lemma generateSSHDConfig_users_round_trip_witness :
  users_of (join " " (users_of ("alice  " ++ tab ++ " bob")))
    = users_of ("alice  " ++ tab ++ " bob").
Proof.
  exact (proj1 (proj2 (generateSSHDConfig_users_round_trip
                         (with_allowUsers sample_config (JString ("alice  " ++ tab ++ " bob")))
                         _ eq_refl))).
Defined.

Lemma generateSSHDConfig_no_users_witness :
  users_of ("  " ++ tab) = [].
Proof.
  exact (proj1 (generateSSHDConfig_no_users
                  (with_allowUsers sample_config (JString ("  " ++ tab))) _ eq_refl eq_refl)).
Defined.

End ExtraScenarios.

Section LoggerScenarios.
Import LoggerUtil.


Lemma logger_falsy_data_witness :
  info (fun _ => "***") (fun _ => "{}") (fun _ => "2026-01-01 00:00:00")
    (mkLogger false false "ssh-setup.log") "started" (DNum 0) []
  = info (fun _ => "***") (fun _ => "{}") (fun _ => "2026-01-01 00:00:00")
      (mkLogger false false "ssh-setup.log") "started" DNull [].
Proof.
  exact (proj1 (logger_falsy_data (fun _ => "***") (fun _ => "{}")
                  (fun _ => "2026-01-01 00:00:00")
                  (mkLogger false false "ssh-setup.log") "started" (DNum 0) [] eq_refl)).
Defined.

(** The configuration as [setupCommand] logs it: the public key is
    masked, the port is not. *)
Example maskData_parsed_configuration :
  _maskData (fun _ => "***")
    (DObj [("publicKey", DStr "ssh-ed25519 AAAA"); ("port", DNum 2222)])
  = DObj [("publicKey", DStr "***"); ("port", DNum 2222)].
Proof. reflexivity. Qed.

End LoggerScenarios.
